(** * Duplicate detection and metadata merge: a shallow embedding

    The development follows the TypeScript sources of the wardrobe
    application:

    - [lib/utils/perceptual-hash.ts]: [generatePerceptualHash],
      [hammingDistance];
    - [lib/gemini/multi-item-detection.ts]: [detectClothingItems];
    - [app/actions/process-image.ts]: [processClothingItems], [mergeItem];
    - [lib/supabase/server.ts]: [createServiceClient].

    Conventions of the embedding.

    - JavaScript strings are [string]s, a character standing for the
      UTF-16 code unit of its code (so the strings of the model are the
      JavaScript strings of code units below 256); the character tests of
      the sources ([includes], [toLowerCase], [trim]) are defined on them
      as JavaScript defines them on these code units.
    - A thrown JavaScript value is a [JsError]; a call that may throw
      returns a [Completion].
    - Network, image decoding and the database are the environment: the
      code is written against an interface of operations over an abstract
      world, each of which may throw.
    - A bounding-box percentage and a confidence are binary64 floats, and
      the sources' arithmetic on them is that of [PrimFloat]; what
      [Math.round] returns (an integer, an infinity or NaN) is a [number],
      whose integers are exact. *)

From Stdlib Require Import Bool Arith ZArith QArith Lia List String Ascii.
From Stdlib Require Import PrimFloat FloatOps SpecFloat DecimalString DecimalNat.
From Stdlib Require Uint63.
Import ListNotations.

(* A decimal literal denotes the nearest binary64 value, as in JavaScript. *)
Set Warnings "-inexact-float".

Local Open Scope string_scope.
Local Open Scope Z_scope.

(** ** JavaScript values that the sources inspect *)

Module Js.

(** The few shapes of dynamically typed values that the code compares with
    [===]: a missing property, a number (status codes), a string. *)
Inductive jsval : Type :=
| JUndefined
| JNum (n : Z)
| JStr (s : string).

Definition is_num (v : jsval) (n : Z) : bool :=
  match v with JNum m => Z.eqb m n | _ => false end.

Definition is_str (v : jsval) (s : string) : bool :=
  match v with JStr t => String.eqb t s | _ => false end.

(** A thrown value.  [isError] is [error instanceof Error]; [message] is
    [error.message] for an [Error] and [String(error)] otherwise; the
    remaining fields are the properties read by the rate-limit test. *)
Record JsError : Type := mkJsError {
  isError : bool;
  message : string;
  status : jsval;
  response_status : jsval;
  statusCode : jsval;
  code : jsval;
  error_code : jsval
}.

(** [new Error(msg)] *)
Definition Error (msg : string) : JsError :=
  mkJsError true msg JUndefined JUndefined JUndefined JUndefined JUndefined.

(** The outcome of evaluating a call: a value or a thrown error. *)
Inductive Completion (A : Type) : Type :=
| Ok (a : A)
| Throw (e : JsError).

Arguments Ok {A} a.
Arguments Throw {A} e.

Definition is_ok {A} (c : Completion A) : bool :=
  match c with Ok _ => true | Throw _ => false end.

(** [s || d] on a possibly missing string: the empty string and
    [undefined] are falsy. *)
Definition truthy (s : option string) : bool :=
  match s with
  | Some t => negb (String.eqb t "")
  | None => false
  end.

Definition or_else (a b : option string) : option string :=
  if truthy a then a else b.

(** [a || []] on a possibly missing array. *)
Definition or_nil {A} (a : option (list A)) : list A :=
  match a with Some l => l | None => [] end.

(** [hay.includes(needle)] *)
Fixpoint includes (hay needle : string) : bool :=
  String.prefix needle hay
  || match hay with
     | EmptyString => false
     | String _ rest => includes rest needle
     end.

(** [c.toLowerCase()] on one code unit below 256: the letters A to Z and
    the capital letters of Latin-1 (U+00C0 to U+00DE, the multiplication
    sign U+00D7 apart) move up by 32. *)
Definition lower_ascii (c : ascii) : ascii :=
  let n := nat_of_ascii c in
  if ((Nat.leb 65 n && Nat.leb n 90)
      || (Nat.leb 192 n && Nat.leb n 222 && negb (Nat.eqb n 215)))%bool
  then ascii_of_nat (n + 32) else c.

Fixpoint toLowerCase (s : string) : string :=
  match s with
  | EmptyString => EmptyString
  | String c rest => String (lower_ascii c) (toLowerCase rest)
  end.

(** White space removed by [trim] and matched by [\s], among the code
    units below 256: tab, line feed, vertical tab, form feed, carriage
    return, space and the no-break space U+00A0. *)
Definition is_space (c : ascii) : bool :=
  let n := nat_of_ascii c in
  (Nat.leb 9 n && Nat.leb n 13)%bool || Nat.eqb n 32 || Nat.eqb n 160.

(** [s.trim() === ''] *)
Fixpoint trims_to_empty (s : string) : bool :=
  match s with
  | EmptyString => true
  | String c rest => is_space c && trims_to_empty rest
  end.

(** *** Numbers

    What [Math.round] returns and the clamping of the sources computes
    with: an integer (of any size, held exactly), an infinity or NaN. *)
Inductive number : Type :=
| Finite (z : Z)
| Infinity
| NegInfinity
| NaN.

(** [a <= b] and [a < b]; a comparison with NaN is false. *)
Definition number_leb (a b : number) : bool :=
  match a, b with
  | NaN, _ | _, NaN => false
  | NegInfinity, _ | _, Infinity => true
  | Finite x, Finite y => Z.leb x y
  | _, _ => false
  end.


(** [Math.min(a, b)] and [Math.max(a, b)]: NaN when an argument is NaN. *)
Definition Math_min (a b : number) : number :=
  match a, b with
  | NaN, _ | _, NaN => NaN
  | _, _ => if number_leb a b then a else b
  end.

Definition Math_max (a b : number) : number :=
  match a, b with
  | NaN, _ | _, NaN => NaN
  | _, _ => if number_leb a b then b else a
  end.

(** [a - b]; between integers below 2^53 in size the difference of
    binary64 is the exact one. *)
Definition minus (a b : number) : number :=
  match a, b with
  | NaN, _ | _, NaN => NaN
  | Finite x, Finite y => Finite (x - y)
  | Infinity, Infinity | NegInfinity, NegInfinity => NaN
  | Infinity, _ | _, NegInfinity => Infinity
  | NegInfinity, _ | _, Infinity => NegInfinity
  end.

(** An integer dimension as the binary64 number it is (exact below 2^53). *)
Definition float_of_Z (n : Z) : float := PrimFloat.of_uint63 (Uint63.of_Z n).

(** [Math.round(f)]: the integer nearest to the binary64 number [f], a
    half going upwards; an integer, an infinity and NaN are returned as
    they are.  A finite [f] is [m * 2^e] with its sign: for [e < 0] the
    result is the floor of [(2 * m + 2^-e) / 2^(1-e)]. *)
Definition Math_round (f : float) : number :=
  match Prim2SF f with
  | S754_nan => NaN
  | S754_infinity false => Infinity
  | S754_infinity true => NegInfinity
  | S754_zero _ => Finite 0
  | S754_finite s m e =>
      let n := if s then Z.neg m else Z.pos m in
      match e with
      | Z0 => Finite n
      | Z.pos p => Finite (n * Z.pos (2 ^ p))
      | Z.neg p => Finite ((2 * n + Z.pos (2 ^ p)) / (2 * Z.pos (2 ^ p)))
      end
  end.


End Js.

Import Js.

(** ** The environment: effects and the operations the code calls *)

Module Effects.

(** A computation threads the world and either yields a value or throws. *)
Definition M (W A : Type) : Type := W -> Completion A * W.

Definition ret {W A} (a : A) : M W A := fun w => (Ok a, w).

Definition throw {W A} (e : JsError) : M W A := fun w => (Throw e, w).

Definition bind {W A B} (m : M W A) (k : A -> M W B) : M W B :=
  fun w =>
    match m w with
    | (Ok a, w') => k a w'
    | (Throw e, w') => (Throw e, w')
    end.

(** [try { m } catch (error) { handler(error) }] *)
Definition try_catch {W A} (m : M W A) (handler : JsError -> M W A) : M W A :=
  fun w =>
    match m w with
    | (Ok a, w') => (Ok a, w')
    | (Throw e, w') => handler e w'
    end.

(** Reading a property of [null]: a [TypeError]. *)
Definition TypeError_null (prop : string) : JsError :=
  Error ("Cannot read properties of null (reading '" ++ prop ++ "')").

End Effects.

Import Effects.

Declare Scope js_scope.
Delimit Scope js_scope with js.
Notation "x <- m ;; k" := (bind m (fun x => k))
  (at level 61, m at next level, right associativity) : js_scope.
Notation "m ;;; k" := (bind m (fun _ => k))
  (at level 61, right associativity) : js_scope.

(** ** Data of [lib/utils/perceptual-hash.ts] *)

(** [BoundingBox]: percentages of the image dimensions. *)
Module BoundingBox.
Record t : Type := mk { x : float; y : float; width : float; height : float }.
Arguments mk (x y width height)%_float.
End BoundingBox.

(** The argument of sharp's [extract]: a pixel rectangle, with the numbers
    the clamping computed. *)
Module Region.
Record t : Type := mk { left : number; top : number; width : number; height : number }.
End Region.

(** What [sharp(buffer).metadata()] reports; a dimension may be missing. *)
Module ImageMeta.
Record t : Type := mk { width : option Z; height : option Z }.
End ImageMeta.

(** The response of [fetch]. *)
Module Response.
Record t : Type := mk { ok : bool; statusText : string; arrayBuffer : list Z }.
End Response.

(** ** Data of [lib/gemini/vision.ts] and of the [clothing_items] table *)

Record ClothingMetadata : Type := mkClothingMetadata {
  category : option string;
  sub_category : option string;
  primary_color : option string;
  secondary_colors : option (list string);
  vibe_tags : option (list string);
  estimated_season : option string
}.

Record ImageUrls : Type := mkImageUrls {
  primary : string;
  variants : option (list string)
}.

(** A row of [clothing_items], with the columns the pipeline reads. *)
Record Row : Type := mkRow {
  id : string;
  user_id : string;
  image_urls : option ImageUrls;
  perceptual_hash : option string;
  ai_metadata : option ClothingMetadata;
  updated_at : option string
}.

(** The object passed to [insert]. *)
Record NewItem : Type := mkNewItem {
  new_user_id : string;
  new_image_urls : ImageUrls;
  new_perceptual_hash : string;
  new_ai_metadata : ClothingMetadata
}.

(** The object passed to [update]. *)
Record Patch : Type := mkPatch {
  patch_image_urls : ImageUrls;
  patch_ai_metadata : ClothingMetadata;
  patch_updated_at : string
}.

(** The [{ data, error }] pair a Supabase query resolves to. *)
Record QueryResult (A : Type) : Type := mkQueryResult {
  data : option A;
  error : option (option string)   (* the error object, with its [message] *)
}.
Arguments mkQueryResult {A} data error.
Arguments data {A} q.
Arguments error {A} q.

(** The operations of the environment: network, image library, classifier,
    clock and the Supabase client, over a world [W]. *)
Class Platform (W : Type) : Type := {
  fetch : string -> M W Response.t;
  sharp_metadata : list Z -> M W ImageMeta.t;
  (** [.greyscale().resize(8, 8, { fit: 'fill' }).raw().toBuffer()], after
      the optional [extract] *)
  sharp_raw : list Z -> option Region.t -> M W (list Z);
  (** [lib/gemini/vision.ts], at its interface: the parsed metadata of the
      classifier's answer, or a throw *)
  analyzeClothingImage : string -> option string -> M W ClothingMetadata;
  (** [new Date().toISOString()] *)
  now_iso : M W string;
  (** [.select('*').eq('user_id', u).eq('perceptual_hash', h).single()] *)
  select_by_hash : string -> string -> M W (QueryResult Row);
  (** [.select('*').eq('user_id', u).not('vision_embedding', 'is', null).limit(50)] *)
  select_with_embedding : string -> M W (QueryResult (list Row));
  (** [.insert(item).select().single()] *)
  insert_item : NewItem -> M W (QueryResult Row);
  (** [.select('*').eq('id', i).eq('user_id', u).single()] *)
  select_by_id : string -> string -> M W (QueryResult Row);
  (** [.update(patch).eq('id', i).select().single()] *)
  update_item : string -> Patch -> M W (QueryResult Row)
}.

(** ** [lib/utils/perceptual-hash.ts] *)

Module PerceptualHash.

(** The pixel rectangle cut out for a bounding box.  The percentages are
    divided and multiplied in binary64, as the source does before
    [Math.round]. *)
Definition cropRegion (imageWidth imageHeight : Z) (boundingBox : BoundingBox.t)
  : Region.t :=
  let left :=
    Math_round ((BoundingBox.x boundingBox / 100) * float_of_Z imageWidth)%float in
  let top :=
    Math_round ((BoundingBox.y boundingBox / 100) * float_of_Z imageHeight)%float in
  let width :=
    Math_round ((BoundingBox.width boundingBox / 100) * float_of_Z imageWidth)%float in
  let height :=
    Math_round ((BoundingBox.height boundingBox / 100) * float_of_Z imageHeight)%float in
  let safeLeft := Math_max (Finite 0) (Math_min left (minus (Finite imageWidth) (Finite 1))) in
  let safeTop := Math_max (Finite 0) (Math_min top (minus (Finite imageHeight) (Finite 1))) in
  let safeWidth :=
    Math_max (Finite 1) (Math_min width (minus (Finite imageWidth) safeLeft)) in
  let safeHeight :=
    Math_max (Finite 1) (Math_min height (minus (Finite imageHeight) safeTop)) in
  Region.mk safeLeft safeTop safeWidth safeHeight.

(** [metadata.width || 1]: a missing or zero dimension counts as 1. *)
Definition dimension_or_1 (d : option Z) : Z :=
  match d with
  | Some n => if Z.eqb n 0 then 1 else n
  | None => 1
  end.

(** The bits of the signature: [processed[i] > avg ? '1' : '0']. *)
Definition hash_of_pixels (processed : list Z) : string :=
  let sum := fold_left Z.add processed 0 in
  let avg := (inject_Z sum / inject_Z (Z.of_nat (List.length processed)))%Q in
  fold_left
    (fun hash p => hash ++ (if Qle_bool (inject_Z p) avg then "0" else "1"))
    processed "".

Section WithPlatform.
Context {W : Type} {P : Platform W}.
Local Open Scope js_scope.

Definition generatePerceptualHash (imageUrl : string)
    (boundingBox : option BoundingBox.t) : M W string :=
  try_catch
    (response <- fetch imageUrl ;;
     if negb (Response.ok response)
     then throw (Error ("Failed to fetch image: " ++ Response.statusText response))
     else
       let buffer := Response.arrayBuffer response in
       metadata <- sharp_metadata buffer ;;
       let imageWidth := dimension_or_1 (ImageMeta.width metadata) in
       let imageHeight := dimension_or_1 (ImageMeta.height metadata) in
       let extract :=
         match boundingBox with
         | Some bb => Some (cropRegion imageWidth imageHeight bb)
         | None => None
         end in
       processed <- sharp_raw buffer extract ;;
       ret (hash_of_pixels processed))
    (fun _ => throw (Error "Failed to generate perceptual hash")).


End WithPlatform.

(** [hash1[i] !== hash2[i]] *)
Definition char_differs (hash1 hash2 : string) (i : nat) : bool :=
  match String.get i hash1, String.get i hash2 with
  | Some c1, Some c2 => negb (Ascii.eqb c1 c2)
  | None, None => false
  | _, _ => true
  end.

(** The counting loop [for (let i = 0; i < hash1.length; i++)]. *)
Definition hamming_loop (hash1 hash2 : string) : nat :=
  fold_left
    (fun distance i => if char_differs hash1 hash2 i then S distance else distance)
    (seq 0 (String.length hash1)) 0%nat.

Definition hammingDistance (hash1 hash2 : string) : Completion nat :=
  if negb (Nat.eqb (String.length hash1) (String.length hash2))
  then Throw (Error "Hashes must be of equal length")
  else Ok (hamming_loop hash1 hash2).

(** The number of positions at which two signatures differ, by recursion on
    the two strings side by side. *)
Fixpoint mismatches (a b : string) : nat :=
  match a, b with
  | String c1 a', String c2 b' =>
      (if Ascii.eqb c1 c2 then 0 else 1)%nat + mismatches a' b'
  | _, _ => 0%nat
  end.



End PerceptualHash.

(** ** [process.env] *)

Record ProcessEnv : Type := mkProcessEnv {
  GEMINI_API_KEY : option string;
  NEXT_PUBLIC_SUPABASE_URL : option string;
  SUPABASE_SERVICE_ROLE_KEY : option string
}.

(** ** [lib/gemini/multi-item-detection.ts] *)

(** An element of the parsed [items] array.  The response is parsed JSON,
    so a property may be missing; [confidence] is present only when
    [typeof item.confidence === 'number']. *)
Module DetectedItem.
Record t : Type := mk {
  description : option string;
  category : option string;
  bounding_box : option BoundingBox.t;
  confidence : option float
}.
End DetectedItem.

(** The parsed response; [items] is present only when it is an array. *)
Record DetectionResponse : Type := mkDetectionResponse {
  items : option (list DetectedItem.t)
}.

Module Detection.

Definition maxRetries : nat := 3.

Definition dquote : string := String (ascii_of_nat 34) EmptyString.

(** The callback of [parsed.items.filter]. *)
Definition keep_item (item : DetectedItem.t) : bool :=
  if negb (truthy (DetectedItem.description item))
     || negb (truthy (DetectedItem.category item))
     || match DetectedItem.bounding_box item with Some _ => false | None => true end
     || match DetectedItem.confidence item with Some _ => false | None => true end
  then false
  else
    match DetectedItem.confidence item with
    | Some c => PrimFloat.ltb 0.5%float c
    | None => false
    end.

(** The filter as the design document words it: a non-empty description, a
    non-empty category, a bounding region and a confidence strictly above
    0.5. *)
Definition retained (item : DetectedItem.t) : Prop :=
  exists d c bb conf,
    DetectedItem.description item = Some d /\ d <> ""
    /\ DetectedItem.category item = Some c /\ c <> ""
    /\ DetectedItem.bounding_box item = Some bb
    /\ DetectedItem.confidence item = Some conf
    /\ PrimFloat.ltb 0.5%float conf = true.

(** The tail of the [try] block, from the parsed response on. *)
Definition filter_response (parsed : DetectionResponse) : Completion (list DetectedItem.t) :=
  match items parsed with
  | None =>
      Throw (Error ("Gemini API response is missing or invalid " ++ dquote
                    ++ "items" ++ dquote ++ " array"))
  | Some its => Ok (filter keep_item its)
  end.

Definition isRateLimitError (e : JsError) : bool :=
  (isError e
   && (includes (message e) "rate limit"
       || includes (message e) "429"
       || includes (toLowerCase (message e)) "too many requests"
       || includes (message e) "RESOURCE_EXHAUSTED"
       || includes (message e) "quota"))
  || is_num (status e) 429
  || is_num (response_status e) 429
  || is_num (statusCode e) 429
  || is_num (code e) 429
  || is_str (error_code e) "RESOURCE_EXHAUSTED".

Definition mentions_auth (msg : string) : bool :=
  includes msg "API key" || includes msg "authentication"
  || includes msg "API_KEY_INVALID".

Definition rate_limit_exceeded_prefix : string :=
  "Gemini API rate limit exceeded. Please wait a few minutes and try again. If this persists, you may need to upgrade your Gemini API plan. Original error: ".

(** What the [catch] block throws once it does not retry. *)
Definition surface (imageUrl : string) (e : JsError) (isRateLimit : bool) : JsError :=
  if isError e then
    if mentions_auth (message e) then
      Error ("Gemini API authentication failed. Please check that GEMINI_API_KEY is set correctly in your .env.local file. Original error: "
             ++ message e)
    else if isRateLimit then
      Error (rate_limit_exceeded_prefix ++ message e)
    else if includes (message e) "image"
            && (includes (message e) "invalid" || includes (message e) "not found") then
      Error ("Failed to access image at URL: " ++ substring 0 100 imageUrl
             ++ "... The image may not be publicly accessible or the URL may be invalid. Original error: "
             ++ message e)
    else if includes (message e) "Failed to detect clothing items" then e
    else Error ("Failed to detect clothing items in image: " ++ message e)
  else Error ("Failed to detect clothing items in image: " ++ message e).

(** [String(n)] for a natural number. *)
Definition decimal (n : nat) : string :=
  DecimalString.NilEmpty.string_of_uint (Nat.to_uint n).

(** The statements after the [for] loop. *)
Definition after_loop (lastError : option JsError) : JsError :=
  match lastError with
  | Some le =>
      if includes (message le) "rate limit" || includes (message le) "429"
         || includes (message le) "RESOURCE_EXHAUSTED"
      then Error ("Gemini API rate limit exceeded after " ++ decimal (maxRetries + 1)
                  ++ " attempts. Please wait a few minutes and try again. If this persists, you may need to upgrade your Gemini API plan. Original error: "
                  ++ message le)
      else le
  | None => Error "Failed to detect clothing items: Unknown error occurred"
  end.

(** The backoff before the retry that follows attempt [k], in milliseconds. *)
Definition backoff (k : nat) : Z := 2 ^ Z.of_nat k * 1000.

(** One call of [detectClothingItems], observed from outside: what it
    returns or throws, the waits it made and how many requests it sent. *)
Record Run : Type := mkRun {
  outcome : Completion (list DetectedItem.t);
  sleeps : list Z;
  attempts : nat
}.

Section Script.

(** The classifier as seen by one call: [script k] is what the [k]-th
    request (fetching the image, [generateContent], stripping the code
    fence and [JSON.parse]) yields. *)
Variable script : nat -> Completion DetectionResponse.
Variable imageUrl : string.

(** The [try] block of the [k]-th iteration: the request, then the check
    and the filter of the parsed response. *)
Definition attempt_result (k : nat) : Completion (list DetectedItem.t) :=
  match script k with
  | Ok parsed => filter_response parsed
  | Throw e => Throw e
  end.

(** The [for] loop; [fuel] is [maxRetries + 1 - attempt], the number of
    iterations its condition [attempt <= maxRetries] still allows. *)
Fixpoint retry_loop (fuel attempt : nat) (lastError : option JsError)
    (slept : list Z) : Run :=
  match fuel with
  | O => mkRun (Throw (after_loop lastError)) slept attempt
  | S fuel' =>
      match attempt_result attempt with
      | Ok filteredItems => mkRun (Ok filteredItems) slept (S attempt)
      | Throw e =>
          let lastError' := if isError e then e else Error (message e) in
          let isRateLimit := isRateLimitError e in
          if isRateLimit && Nat.ltb attempt maxRetries then
            let waitTime := backoff attempt in
            retry_loop fuel' (S attempt) (Some lastError') (slept ++ [waitTime])%list
          else mkRun (Throw (surface imageUrl e isRateLimit)) slept (S attempt)
      end
  end.

Definition detectClothingItems (env : ProcessEnv) : Run :=
  if negb (truthy (GEMINI_API_KEY env)) then
    mkRun (Throw (Error "GEMINI_API_KEY is not configured. Please set it in your .env.local file."))
          [] 0
  else if String.eqb imageUrl "" || trims_to_empty imageUrl then
    mkRun (Throw (Error "Invalid image URL: imageUrl is required and must be a non-empty string"))
          [] 0
  else retry_loop (maxRetries + 1) 0 None [].

(** *** Vocabulary for the runs of the loop *)

(** A call that passes the two checks made before the loop. *)
Definition accepted_call (env : ProcessEnv) : Prop :=
  truthy (GEMINI_API_KEY env) = true /\ trims_to_empty imageUrl = false.

(** Attempt [k] failed with an error that the code classifies as a rate
    limit. *)
Definition rate_limited_at (k : nat) : Prop :=
  exists e, attempt_result k = Throw e /\ isRateLimitError e = true.

(** What the call ends with when attempt [n] is its last one. *)
Definition settle (n : nat) : Completion (list DetectedItem.t) :=
  match attempt_result n with
  | Ok kept => Ok kept
  | Throw e => Throw (surface imageUrl e (isRateLimitError e))
  end.

(** Attempt [n] is not followed by a retry: it succeeded, or failed with
    something else than a rate limit, or was the last one allowed. *)
Definition final_at (n : nat) : Prop :=
  n = maxRetries
  \/ match attempt_result n with
     | Ok _ => True
     | Throw e => isRateLimitError e = false
     end.

End Script.

End Detection.

(** ** [lib/supabase/server.ts] *)

Definition createServiceClient (env : ProcessEnv) : Completion unit :=
  if negb (truthy (NEXT_PUBLIC_SUPABASE_URL env)) then
    Throw (Error "NEXT_PUBLIC_SUPABASE_URL is not configured. Please set it in your .env.local file.")
  else if negb (truthy (SUPABASE_SERVICE_ROLE_KEY env)) then
    Throw (Error "SUPABASE_SERVICE_ROLE_KEY is not configured. Please set it in your .env.local file.")
  else Ok tt.

(** ** [app/actions/process-image.ts] *)

Module ProcessItemInput.
Record t : Type := mk {
  imageUrl : string;
  description : option string;
  category : option string;
  boundingBox : option BoundingBox.t
}.
End ProcessItemInput.

Module ProcessedItem.
Record t : Type := mk {
  id : string;
  merged : bool;
  existingItemId : option string;
  imageAdded : option bool
}.
End ProcessedItem.

Module ProcessImage.

(** The record pushed by the [catch] block. *)
Definition failure : ProcessedItem.t := ProcessedItem.mk "" false None None.

(** *** The pure part of [mergeItem] *)

(** The [image_urls] written back: the existing object (or the default
    one), with the new URL pushed onto [variants]. *)
Definition merged_image_urls (existing : option ImageUrls) (newImageUrl : string)
  : ImageUrls :=
  let imageUrls :=
    match existing with
    | Some iu => iu
    | None => mkImageUrls "" (Some [])
    end in
  let variants0 :=
    match variants imageUrls with
    | Some vs => vs
    | None => []
    end in
  mkImageUrls (primary imageUrls) (Some (variants0 ++ [newImageUrl])%list).

(** [Array.from(new Set(xs))]: a [Set] keeps the order of first insertion. *)
Definition Set_add (s : list string) (v : string) : list string :=
  if existsb (String.eqb v) s then s else (s ++ [v])%list.

Definition array_from_set (xs : list string) : list string :=
  fold_left Set_add xs [].

(** [a.indexOf(v)] *)
Fixpoint indexOf_from (a : list string) (v : string) (i : Z) : Z :=
  match a with
  | [] => -1
  | h :: t => if String.eqb h v then i else indexOf_from t v (i + 1)
  end.

Definition indexOf (a : list string) (v : string) : Z := indexOf_from a v 0.

(** [a.filter((v, i, a) => a.indexOf(v) === i)] *)
Fixpoint filter_first_from (a rest : list string) (i : Z) : list string :=
  match rest with
  | [] => []
  | v :: rest' =>
      if Z.eqb (indexOf a v) i
      then v :: filter_first_from a rest' (i + 1)
      else filter_first_from a rest' (i + 1)
  end.

Definition filter_first (a : list string) : list string := filter_first_from a a 0.

(** [existingItem.ai_metadata || {}] *)
Definition metadata_or_empty (m : option ClothingMetadata) : ClothingMetadata :=
  match m with
  | Some md => md
  | None => mkClothingMetadata None None None None None None
  end.

(** A property under [{ ...existing, ...new }]: the new one when present. *)
Definition spread {A} (existing new : option A) : option A :=
  match new with
  | Some v => Some v
  | None => existing
  end.

Definition mergeMetadata (existingMetadata newMetadata : ClothingMetadata)
  : ClothingMetadata :=
  let combinedVibeTags :=
    (or_nil (vibe_tags existingMetadata) ++ or_nil (vibe_tags newMetadata))%list in
  let uniqueVibeTags := array_from_set combinedVibeTags in
  {| category := or_else (category newMetadata) (category existingMetadata);
     sub_category := or_else (sub_category newMetadata) (sub_category existingMetadata);
     primary_color := or_else (primary_color newMetadata) (primary_color existingMetadata);
     secondary_colors :=
       Some (filter_first (or_nil (secondary_colors existingMetadata)
                           ++ or_nil (secondary_colors newMetadata))%list);
     vibe_tags := Some uniqueVibeTags;
     estimated_season :=
       spread (estimated_season existingMetadata) (estimated_season newMetadata) |}.

(** *** Vocabulary for the merge policy *)

(** The variants an item has before a merge. *)
Definition existing_variants (existing : option ImageUrls) : list string :=
  match existing with
  | Some iu => or_nil (variants iu)
  | None => []
  end.

(** The image references after merging [urls] one after the other. *)
Definition merge_all (imageUrls : ImageUrls) (urls : list string) : ImageUrls :=
  fold_left (fun acc url => merged_image_urls (Some acc) url) urls imageUrls.

(** "The new value only if non-empty, otherwise the existing value." *)
Definition non_empty_wins (new existing result : option string) : Prop :=
  (forall v, new = Some v -> v <> "" -> result = Some v)
  /\ (new = None \/ new = Some "" -> result = existing).

(** "Unioned and de-duplicated." *)
Definition deduplicated_union (old new : option (list string))
    (result : option (list string)) : Prop :=
  exists l, result = Some l /\ NoDup l
            /\ forall x, In x l <-> In x (or_nil old) \/ In x (or_nil new).

(** *** The effectful part *)

Section WithPlatform.
Context {W : Type} {P : Platform W}.
Local Open Scope js_scope.

Definition mergeItem (existingItemId newImageUrl userId : string)
  : M W (option Row) :=
  fetched <- select_by_id existingItemId userId ;;
  match error fetched, data fetched with
  | None, Some existingItem =>
      let imageUrls := merged_image_urls (image_urls existingItem) newImageUrl in
      let existingMetadata := metadata_or_empty (ai_metadata existingItem) in
      newMetadata <- analyzeClothingImage newImageUrl None ;;
      let mergedMetadata := mergeMetadata existingMetadata newMetadata in
      stamp <- now_iso ;;
      updated <- update_item existingItemId (mkPatch imageUrls mergedMetadata stamp) ;;
      match error updated with
      | Some _ => throw (Error "Failed to merge item")
      | None => ret (data updated)
      end
  | _, _ => throw (Error "Existing item not found")
  end.

(** The body of the [try] block for one item. *)
Definition resolveItem (userId : string) (item : ProcessItemInput.t)
  : M W ProcessedItem.t :=
  perceptualHash <-
    PerceptualHash.generatePerceptualHash
      (ProcessItemInput.imageUrl item) (ProcessItemInput.boundingBox item) ;;
  exact <- select_by_hash userId perceptualHash ;;
  match data exact with
  | Some exactMatch =>
      merged <- mergeItem (id exactMatch) (ProcessItemInput.imageUrl item) userId ;;
      match merged with
      | Some m => ret (ProcessedItem.mk (id m) true (Some (id exactMatch)) (Some true))
      | None => throw (TypeError_null "id")
      end
  | None =>
      select_with_embedding userId ;;;
      metadata <-
        analyzeClothingImage
          (ProcessItemInput.imageUrl item) (ProcessItemInput.description item) ;;
      let imageUrls := mkImageUrls (ProcessItemInput.imageUrl item) (Some []) in
      inserted <- insert_item (mkNewItem userId imageUrls perceptualHash metadata) ;;
      match error inserted with
      | Some err =>
          let errorDetails :=
            match or_else err (Some "Unknown database error") with
            | Some d => d
            | None => ""
            end in
          throw (Error ("Failed to create clothing item: " ++ errorDetails))
      | None =>
          match data inserted with
          | Some newItem => ret (ProcessedItem.mk (id newItem) false None None)
          | None => throw (TypeError_null "id")
          end
      end
  end.

(** The record an item contributes to [results]: its own on success, the
    [catch] block's on a throw. *)
Definition outcome_record (c : Completion ProcessedItem.t) : ProcessedItem.t :=
  match c with
  | Ok r => r
  | Throw _ => failure
  end.

(** The [for (const item of items)] loop, with [results] as accumulator. *)
Fixpoint process_loop (userId : string) (items : list ProcessItemInput.t)
    (results : list ProcessedItem.t) (w : W) : list ProcessedItem.t * W :=
  match items with
  | [] => (results, w)
  | item :: rest =>
      match resolveItem userId item w with
      | (Ok r, w') => process_loop userId rest (results ++ [r])%list w'
      | (Throw _, w') => process_loop userId rest (results ++ [failure])%list w'
      end
  end.

(** The world in which the loop finds itself after the given items. *)
Definition world_after (userId : string) (items : list ProcessItemInput.t) (w : W) : W :=
  snd (process_loop userId items [] w).

Definition processClothingItems (env : ProcessEnv) (userId : string)
    (items : list ProcessItemInput.t) : M W (list ProcessedItem.t) :=
  fun w =>
    match createServiceClient env with
    | Throw e => (Throw e, w)
    | Ok _ =>
        let (results, w') := process_loop userId items [] w in
        (Ok results, w')
    end.

End WithPlatform.

End ProcessImage.

(** ** A reference environment: the table as a list of rows

    The network, the image library and the classifier answer by fixed
    functions of their arguments; the [clothing_items] table is a list of
    rows, with the behaviour of the Supabase calls the pipeline makes:
    [single()] yields its row only when exactly one row matches, [insert]
    draws a fresh identifier, [update] rewrites the rows with the given
    identifier. *)

Module TableWorld.

Record Oracles : Type := mkOracles {
  o_fetch : string -> Completion Response.t;
  o_metadata : list Z -> Completion ImageMeta.t;
  o_raw : list Z -> option Region.t -> Completion (list Z);
  o_analyze : string -> option string -> Completion ClothingMetadata
}.

Record Table : Type := mkTable {
  rows : list Row;
  next_id : nat;
  clock : nat
}.

Definition single (matching : list Row) : QueryResult Row :=
  match matching with
  | [r] => mkQueryResult (Some r) None
  | _ => mkQueryResult None (Some (Some "JSON object requested, multiple (or no) rows returned"))
  end.

Definition has_hash (userId hash : string) (r : Row) : bool :=
  String.eqb (user_id r) userId
  && match perceptual_hash r with
     | Some h => String.eqb h hash
     | None => false
     end.

Definition has_id (i : string) (r : Row) : bool := String.eqb (id r) i.

Definition has_id_user (i userId : string) (r : Row) : bool :=
  String.eqb (id r) i && String.eqb (user_id r) userId.

Definition fresh_id (n : nat) : string := "item-" ++ Detection.decimal n.

Definition apply_patch (i : string) (p : Patch) (r : Row) : Row :=
  if has_id i r
  then mkRow (id r) (user_id r) (Some (patch_image_urls p)) (perceptual_hash r)
             (Some (patch_ai_metadata p)) (Some (patch_updated_at p))
  else r.

Definition pure_op {A} (c : Completion A) : M Table A := fun w => (c, w).

#[export] Instance table_platform (o : Oracles) : Platform Table := {
  fetch url := pure_op (o_fetch o url);
  sharp_metadata buffer := pure_op (o_metadata o buffer);
  sharp_raw buffer extract := pure_op (o_raw o buffer extract);
  analyzeClothingImage url hint := pure_op (o_analyze o url hint);
  now_iso := fun w =>
    (Ok ("T" ++ Detection.decimal (clock w)),
     mkTable (rows w) (next_id w) (S (clock w)));
  select_by_hash userId hash := fun w =>
    (Ok (single (filter (has_hash userId hash) (rows w))), w);
  select_with_embedding userId := fun w => (Ok (mkQueryResult (Some []) None), w);
  insert_item item := fun w =>
    let r := mkRow (fresh_id (next_id w)) (new_user_id item)
                   (Some (new_image_urls item)) (Some (new_perceptual_hash item))
                   (Some (new_ai_metadata item)) None in
    (Ok (single [r]), mkTable (rows w ++ [r]) (S (next_id w)) (clock w));
  select_by_id i userId := fun w =>
    (Ok (single (filter (has_id_user i userId) (rows w))), w);
  update_item i p := fun w =>
    let rows' := map (apply_patch i p) (rows w) in
    (Ok (single (filter (has_id i) rows')), mkTable rows' (next_id w) (clock w))
}.

(** Every stored item has a non-empty primary image reference. *)
Definition primary_set (r : Row) : Prop :=
  exists iu, image_urls r = Some iu /\ primary iu <> "".

Definition all_primary_set (w : Table) : Prop := Forall primary_set (rows w).

(** An item's identifier with its primary image reference. *)
Definition item_primary (r : Row) : string * option string :=
  (id r, option_map primary (image_urls r)).

(** [id] is the primary key of the table. *)
Definition unique_ids (w : Table) : Prop := NoDup (map id (rows w)).

End TableWorld.

(** ** Fixtures, after the test suites of the repository *)

Module Fixtures.

Definition TEST_USER_ID : string := "00000000-0000-0000-0000-000000000000".
Definition TEST_IMAGE_URL : string := "https://example.com/test-image.jpg".

Definition configured : ProcessEnv :=
  mkProcessEnv (Some "test-gemini-key") (Some "https://test.supabase.co")
               (Some "test-service-role-key").

Definition mockMetadata : ClothingMetadata :=
  mkClothingMetadata (Some "top") (Some "t-shirt") (Some "navy blue")
                     (Some ["white"]) (Some ["casual"; "minimalist"])
                     (Some "all-season").

Definition mockPixels : list Z := [100; 150; 200; 50; 100; 150; 200; 50].

(** A network that serves every non-empty URL except ["https://example.com/missing.jpg"],
    decodes every image as 100 by 100 and classifies everything alike. *)
Definition oracles : TableWorld.Oracles :=
  TableWorld.mkOracles
    (fun url =>
       if String.eqb url "" then Throw (Error "Failed to parse URL")
       else if String.eqb url "https://example.com/missing.jpg"
       then Ok (Response.mk false "Not Found" [])
       else Ok (Response.mk true "OK" [1; 2; 3; 4]))
    (fun _ => Ok (ImageMeta.mk (Some 100) (Some 100)))
    (fun _ _ => Ok mockPixels)
    (fun _ _ => Ok mockMetadata).




(** A well-formed detection with the given confidence. *)
Definition detected (confidence : float) : DetectedItem.t :=
  DetectedItem.mk (Some "A navy blue t-shirt") (Some "shirt")
                  (Some (BoundingBox.mk 10 20 30 40)) (Some confidence).

(** The failures a request can end in. *)
Definition rate_limited : JsError := Error "rate limit".

Definition status_429 : JsError :=
  mkJsError false "[object Object]" (JNum 429) JUndefined JUndefined JUndefined JUndefined.

Definition quota_for_key : JsError := Error "quota exceeded for this API key".

Definition always {A} (c : Completion A) : nat -> Completion A := fun _ => c.

Definition empty_table : TableWorld.Table := TableWorld.mkTable [] 1 0.

Definition candidate (url : string) : ProcessItemInput.t :=
  ProcessItemInput.mk url (Some "A navy blue t-shirt") None None.

End Fixtures.

(** ** Vocabulary for the signature *)

Module Signature.

(** The sum the first loop of [generatePerceptualHash] accumulates. *)
Definition total (processed : list Z) : Z := fold_left Z.add processed 0.

(** The character appended for one pixel. *)
Definition bit (avg : Q) (p : Z) : string :=
  if Qle_bool (inject_Z p) avg then "0" else "1".

(** The signature, pixel by pixel. *)
Fixpoint bits (avg : Q) (processed : list Z) : string :=
  match processed with
  | [] => ""
  | p :: rest => bit avg p ++ bits avg rest
  end.

(** The average the pixels are compared with. *)
Definition average (processed : list Z) : Q :=
  (inject_Z (total processed) / inject_Z (Z.of_nat (List.length processed)))%Q.

(** A string of the characters 0 and 1. *)
Definition is_binary (s : string) : Prop :=
  forall i c, String.get i s = Some c -> c = "0"%char \/ c = "1"%char.

End Signature.

(** ** Vocabulary for the runs of the detection gateway *)

Module Waits.

(** The time a call spent in its backoff waits, in milliseconds. *)
Definition total_wait (run : Detection.Run) : Z :=
  fold_left Z.add (Detection.sleeps run) 0.

(** The message thrown for a response without an [items] array. *)
Definition missing_items_message : string :=
  "Gemini API response is missing or invalid " ++ Detection.dquote
  ++ "items" ++ Detection.dquote ++ " array".

End Waits.

(** ** Vocabulary for the outcomes of the pipeline *)

Module Outcomes.

(** The two shapes of a record of [results]: a merge names the item it
    merged into and sets [imageAdded]; anything else leaves both out. *)
Definition well_shaped (r : ProcessedItem.t) : Prop :=
  if ProcessedItem.merged r
  then (exists i, ProcessedItem.existingItemId r = Some i)
       /\ ProcessedItem.imageAdded r = Some true
  else ProcessedItem.existingItemId r = None /\ ProcessedItem.imageAdded r = None.

(** A record that reports a newly filed item. *)
Definition created (r : ProcessedItem.t) : bool :=
  negb (ProcessedItem.merged r) && negb (String.eqb (ProcessedItem.id r) "").

(** What a row is found by: identifier, owner and signature. *)
Definition row_key (r : Row) : string * string * option string :=
  (id r, user_id r, perceptual_hash r).

(** Identifiers are unique and the ones still to be drawn are unused. *)
Definition well_keyed (w : TableWorld.Table) : Prop :=
  NoDup (map id (TableWorld.rows w))
  /\ forall k, (TableWorld.next_id w <= k)%nat ->
               ~ In (TableWorld.fresh_id k) (map id (TableWorld.rows w)).

End Outcomes.

(** ** Vocabulary for de-duplication *)

Module Dedup.

(** The elements of [xs] not among [seen], each at its first occurrence. *)
Fixpoint keep_new (seen xs : list string) : list string :=
  match xs with
  | [] => []
  | x :: rest =>
      if existsb (String.eqb x) seen
      then keep_new seen rest
      else x :: keep_new (seen ++ [x]) rest
  end.

End Dedup.

(** An analysis service that is down, in the otherwise usual network. *)
Definition oracles_without_analysis : TableWorld.Oracles :=
  TableWorld.mkOracles
    (TableWorld.o_fetch Fixtures.oracles)
    (TableWorld.o_metadata Fixtures.oracles)
    (TableWorld.o_raw Fixtures.oracles)
    (fun _ _ => Throw (Error "Failed to analyze clothing image: service unavailable")).

(** ** [app/actions/upload.ts]: the path of an upload *)

Module Upload.

(** [fileName.split('.').pop()]: what follows the last dot. *)
Fixpoint last_segment_from (segment s : string) : string :=
  match s with
  | EmptyString => segment
  | String c rest =>
      if Ascii.eqb c "."%char
      then last_segment_from "" rest
      else last_segment_from (segment ++ String c "") rest
  end.

Definition last_segment (s : string) : string := last_segment_from "" s.

(** The characters that [/[^a-z0-9]/gi] leaves in place. *)
Definition is_alnum (c : ascii) : bool :=
  let n := nat_of_ascii c in
  (Nat.leb 97 n && Nat.leb n 122) || (Nat.leb 65 n && Nat.leb n 90)
  || (Nat.leb 48 n && Nat.leb n 57).

(** [s.replace(/[^a-z0-9]/gi, '')] *)
Fixpoint keep_alnum (s : string) : string :=
  match s with
  | EmptyString => EmptyString
  | String c rest => if is_alnum c then String c (keep_alnum rest) else keep_alnum rest
  end.

(** [s || 'bin'] *)
Definition or_bin (s : string) : string := if String.eqb s "" then "bin" else s.

Definition fileExt (fileName : string) : string :=
  if includes fileName "." then or_bin (toLowerCase (last_segment fileName)) else "bin".

Definition sanitizedExt (fileName : string) : string :=
  or_bin (keep_alnum (fileExt fileName)).

(** The template of [filePath]; [stamp] is [Date.now()] and [nonce] is
    [Math.random().toString(36).substring(7)], both as printed. *)
Definition filePath (userId stamp nonce fileName : string) : string :=
  userId ++ "/uploads/" ++ stamp ++ "-" ++ nonce ++ "." ++ sanitizedExt fileName.

(** What [createSignedUploadUrl] of the storage client resolves to:
    [data.signedUrl] and the error with its message. *)
Definition StorageResult : Type := QueryResult (option string).

Record SignedUploadUrlResponse : Type := mkSignedUploadUrlResponse {
  signedUrl : string;
  path : string
}.

Definition blank (s : string) : bool := String.eqb s "" || trims_to_empty s.

Definition storage_failure (err : option string) : JsError :=
  match err with
  | Some msg =>
      if includes msg "does not exist" || includes msg "not found"
      then Error ("Storage bucket " ++ Detection.dquote ++ "clothing-items"
                  ++ Detection.dquote
                  ++ " does not exist. Please run the database migration (003_setup_storage.sql) to create the storage bucket.")
      else Error ("Failed to create signed URL: " ++ msg)
  | None => Error "Failed to create signed URL: undefined"
  end.

Section Storage.

Variable env : ProcessEnv.
(** [Date.now()] and the random suffix of this call. *)
Variables stamp nonce : string.
(** The storage client: the answer for the path asked. *)
Variable storage : string -> Completion StorageResult.

(** The body of the [try] block. *)
Definition sign (userId fileName : string) : Completion SignedUploadUrlResponse :=
  match createServiceClient env with
  | Throw e => Throw e
  | Ok _ =>
      let p := filePath userId stamp nonce fileName in
      match storage p with
      | Throw e => Throw e
      | Ok result =>
          match error result with
          | Some err => Throw (storage_failure err)
          | None =>
              match data result with
              | Some (Some url) =>
                  if String.eqb url ""
                  then Throw (Error "Invalid response from Supabase: signedUrl is missing")
                  else Ok (mkSignedUploadUrlResponse url p)
              | _ => Throw (Error "Invalid response from Supabase: signedUrl is missing")
              end
          end
      end
  end.

Definition createSignedUploadUrl (userId fileName : string)
  : Completion SignedUploadUrlResponse :=
  if blank userId then
    Throw (Error "Invalid userId: userId is required and must be a non-empty string")
  else if blank fileName then
    Throw (Error "Invalid fileName: fileName is required and must be a non-empty string")
  else
    match sign userId fileName with
    | Ok response => Ok response
    | Throw e =>
        if isError e then Throw e
        else Throw (Error "Failed to create upload URL: Unknown error occurred")
    end.

End Storage.

(** A lower-case letter or a digit. *)
Definition is_lower_alnum (c : ascii) : bool :=
  let n := nat_of_ascii c in
  (Nat.leb 97 n && Nat.leb n 122) || (Nat.leb 48 n && Nat.leb n 57).

Fixpoint all_chars (f : ascii -> bool) (s : string) : bool :=
  match s with
  | EmptyString => true
  | String c rest => f c && all_chars f rest
  end.

(** A storage client that signs every path with [url], and one that is
    unreachable. *)
Definition storage_ok (url : string) : string -> Completion StorageResult :=
  fun _ => Ok (mkQueryResult (Some (Some url)) None).

Definition storage_down : string -> Completion StorageResult :=
  fun _ => Throw (Error "fetch failed").

End Upload.

(** ** The code fence around the classifier's JSON

    [lib/gemini/vision.ts] and [lib/gemini/multi-item-detection.ts] strip
    a Markdown fence from the text before [JSON.parse].  The text is taken
    as its UTF-16 code units, so that all the white space of JavaScript is
    there. *)

Module CodeFence.

(** Three backticks. *)
Definition fence : list N := [96; 96; 96]%N.

(** The letters [json]. *)
Definition json_tag : list N := [106; 115; 111; 110]%N.

(** The code units [trim] removes and [\s] matches: tab to carriage
    return, space, U+00A0, U+1680, U+2000 to U+200A, U+2028, U+2029,
    U+202F, U+205F, U+3000 and U+FEFF. *)
Definition is_white_space (c : N) : bool :=
  ((9 <=? c) && (c <=? 13) || (c =? 32) || (c =? 160) || (c =? 5760)
   || (8192 <=? c) && (c <=? 8202) || (c =? 8232) || (c =? 8233)
   || (c =? 8239) || (c =? 8287) || (c =? 12288) || (c =? 65279))%N.

(** Leading white space removed. *)
Fixpoint drop_spaces (l : list N) : list N :=
  match l with
  | [] => []
  | c :: rest => if is_white_space c then drop_spaces rest else l
  end.

(** [text.trim()] *)
Definition trim (l : list N) : list N :=
  rev (drop_spaces (rev (drop_spaces l))).

(** [l] without the prefix [p], when it starts with it. *)
Fixpoint strip_prefix (p l : list N) : option (list N) :=
  match p, l with
  | [], _ => Some l
  | a :: p', b :: l' => if N.eqb a b then strip_prefix p' l' else None
  | _ :: _, [] => None
  end.

(** [.replace(/^```json\s*/, '')] and [.replace(/^```\s*/, '')], on a text
    that starts with the prefix. *)
Definition strip_opening (p l : list N) : option (list N) :=
  match strip_prefix p l with
  | Some rest => Some (drop_spaces rest)
  | None => None
  end.

(** [.replace(/\s*```$/, '')]: the closing fence at the very end, with the
    white space before it. *)
Definition strip_closing (l : list N) : list N :=
  match strip_prefix fence (rev l) with
  | Some before => rev (drop_spaces before)
  | None => l
  end.

(** The text handed to [JSON.parse]. *)
Definition strip_list (text : list N) : list N :=
  let jsonText := trim text in
  match strip_opening (fence ++ json_tag) jsonText with
  | Some rest => strip_closing rest
  | None =>
      match strip_opening fence jsonText with
      | Some rest => strip_closing rest
      | None => jsonText
      end
  end.

(** The code units of a text of the model. *)
Definition code_units (text : string) : list N :=
  map N_of_ascii (list_ascii_of_string text).

(** White space only. *)
Definition spaces (l : list N) : Prop := Forall (fun c => is_white_space c = true) l.

(** Neither starts nor ends with white space. *)
Definition tight (l : list N) : Prop :=
  drop_spaces l = l /\ drop_spaces (rev l) = rev l.

End CodeFence.

(** * Properties *)

(** ** Signature distance and the crop rectangle *)

Module PerceptualHashFacts.

Import PerceptualHash.

Section CountingLoop.

Variables hash1 hash2 : string.

Let step (distance i : nat) : nat :=
  if char_differs hash1 hash2 i then S distance else distance.

Lemma count_from_acc (l : list nat) (acc : nat) :
  fold_left step l acc = (acc + fold_left step l 0)%nat.
Proof.
  revert acc. induction l as [|i l IH]; intros acc; simpl.
  - lia.
  - rewrite (IH (step acc i)), (IH (step 0%nat i)).
    unfold step. destruct (char_differs hash1 hash2 i); lia.
Qed.

End CountingLoop.

(** Position [S i] of two non-empty strings is position [i] of their tails. *)
Lemma char_differs_tail c1 c2 a b i :
  char_differs (String c1 a) (String c2 b) (S i) = char_differs a b i.
Proof. reflexivity. Qed.

Lemma hamming_loop_cons c1 c2 a b :
  hamming_loop (String c1 a) (String c2 b)
  = ((if Ascii.eqb c1 c2 then 0 else 1) + hamming_loop a b)%nat.
Proof.
  unfold hamming_loop. cbn [String.length seq fold_left].
  rewrite count_from_acc, <- seq_shift.
  f_equal.
  - unfold char_differs. cbn. destruct (Ascii.eqb c1 c2); reflexivity.
  - generalize (seq 0 (String.length a)) as l. generalize 0%nat as acc.
    intros acc l. revert acc.
    induction l as [|i l IH]; intros acc; cbn [map fold_left].
    + reflexivity.
    + rewrite char_differs_tail. apply IH.
Qed.

Lemma hamming_loop_mismatches a :
  forall b, String.length a = String.length b ->
            hamming_loop a b = mismatches a b.
Proof.
  induction a as [|c1 a IH]; intros [|c2 b] Hlen; try discriminate.
  - reflexivity.
  - rewrite hamming_loop_cons. cbn [mismatches].
    rewrite IH by (cbn in Hlen; lia). reflexivity.
Qed.

Lemma mismatches_bound a :
  forall b, (mismatches a b <= String.length a)%nat.
Proof.
  induction a as [|c1 a IH]; intros [|c2 b]; cbn; try lia.
  specialize (IH b). destruct (Ascii.eqb c1 c2); lia.
Qed.

(** C10. [hammingDistance] throws "Hashes must be of equal length" exactly
    when the two signatures differ in length, a 4-bit against a 6-bit one
    for instance, and for signatures of equal length it returns the number
    of positions at which they differ. *)
Theorem hammingDistance_spec (a b : string) :
  (String.length a <> String.length b ->
   hammingDistance a b = Throw (Error "Hashes must be of equal length"))
  /\ (String.length a = String.length b ->
      hammingDistance a b = Ok (mismatches a b))
  /\ hammingDistance "1010" "101010" = Throw (Error "Hashes must be of equal length").
Proof.
  unfold hammingDistance. repeat split.
  - intros Hne. apply Nat.eqb_neq in Hne. rewrite Hne. reflexivity.
  - intros Heq. rewrite (proj2 (Nat.eqb_eq _ _) Heq). cbn [negb].
    rewrite hamming_loop_mismatches by exact Heq. reflexivity.
Qed.

Lemma hammingDistance_spec_witness :
  hammingDistance "1010" "101010" = Throw (Error "Hashes must be of equal length")
  /\ hammingDistance "10101010" "10101011" = Ok 1%nat
  /\ hammingDistance "00000000" "11111111" = Ok 8%nat.
Proof.
  split; [|split].
  - apply (proj1 (hammingDistance_spec "1010" "101010")). cbn. discriminate.
  - apply (proj1 (proj2 (hammingDistance_spec "10101010" "10101011"))). reflexivity.
  - apply (proj1 (proj2 (hammingDistance_spec "00000000" "11111111"))). reflexivity.
Defined.

(** *** The crop rectangle *)







End PerceptualHashFacts.

(** ** The detection gateway *)

Module DetectionFacts.

Import Detection.

(** *** The candidate filter *)

Lemma truthy_spec (s : option string) :
  truthy s = true <-> exists t, s = Some t /\ t <> "".
Proof.
  destruct s as [t|]; cbn.
  - destruct (String.eqb_spec t ""); cbn; split.
    + discriminate.
    + intros (t' & [= <-] & Hne). contradiction.
    + intros _. now exists t.
    + reflexivity.
  - split; [discriminate | intros (t & [=] & _)].
Qed.

Lemma keep_item_retained (item : DetectedItem.t) :
  keep_item item = true <-> retained item.
Proof.
  unfold keep_item, retained. split.
  - intros H.
    destruct (truthy (DetectedItem.description item)) eqn:Hd; [|discriminate].
    destruct (truthy (DetectedItem.category item)) eqn:Hc; [|discriminate].
    destruct (DetectedItem.bounding_box item) as [bb|]; [|discriminate].
    destruct (DetectedItem.confidence item) as [conf|]; [|discriminate].
    cbn in H.
    apply truthy_spec in Hd as (d & Hd & Hdne).
    apply truthy_spec in Hc as (c & Hc & Hcne).
    exists d, c, bb, conf. rewrite Hd, Hc. auto 10.
  - intros (d & c & bb & conf & Hd & Hdne & Hc & Hcne & Hbb & Hconf & Hgt).
    rewrite Hbb, Hconf.
    rewrite (proj2 (truthy_spec _)) by eauto.
    rewrite (proj2 (truthy_spec _)) by eauto.
    exact Hgt.
Qed.

Section Runs.

Variable script : nat -> Completion DetectionResponse.
Variable imageUrl : string.

Lemma detect_enters_loop env :
  accepted_call imageUrl env ->
  detectClothingItems script imageUrl env
  = retry_loop script imageUrl (maxRetries + 1) 0 None [].
Proof.
  intros [Hkey Hurl]. unfold detectClothingItems.
  rewrite Hkey, Hurl. cbn [negb].
  destruct (String.eqb_spec imageUrl "") as [->|_]; [discriminate Hurl|reflexivity].
Qed.

Lemma retry_loop_step fuel attempt lastError slept :
  retry_loop script imageUrl (S fuel) attempt lastError slept
  = match attempt_result script attempt with
    | Ok filteredItems => mkRun (Ok filteredItems) slept (S attempt)
    | Throw e =>
        if isRateLimitError e && Nat.ltb attempt maxRetries then
          retry_loop script imageUrl fuel (S attempt)
            (Some (if isError e then e else Error (message e)))
            (slept ++ [backoff attempt])%list
        else mkRun (Throw (surface imageUrl e (isRateLimitError e))) slept (S attempt)
    end.
Proof. reflexivity. Qed.

(** The loop, started at [attempt] with the iterations its condition still
    allows, stops at some attempt [n <= maxRetries]: every earlier attempt
    was rate limited and followed by its backoff, and [n] settles the
    call. *)
Lemma retry_loop_shape (fuel : nat) :
  forall attempt lastError slept,
    (attempt <= maxRetries)%nat -> (maxRetries + 1 <= attempt + S fuel)%nat ->
    exists n,
      (attempt <= n <= maxRetries)%nat
      /\ (forall k, (attempt <= k < n)%nat -> rate_limited_at script k)
      /\ final_at script n
      /\ retry_loop script imageUrl (S fuel) attempt lastError slept
         = mkRun (settle script imageUrl n)
                 (slept ++ map backoff (seq attempt (n - attempt)))%list
                 (S n).
Proof.
  induction fuel as [|fuel IH]; intros attempt lastError slept Hle Hinv.
  - exists attempt. unfold maxRetries in *.
    assert (attempt = 3%nat) as -> by lia.
    split; [lia|]. split; [intros k Hk; lia|]. split; [now left|].
    rewrite retry_loop_step. unfold settle.
    destruct (attempt_result script 3) as [kept|e].
    + cbn. now rewrite app_nil_r.
    + rewrite andb_false_r. cbn. now rewrite app_nil_r.
  - rewrite retry_loop_step.
    destruct (attempt_result script attempt) as [kept|e] eqn:Hres.
    + exists attempt. split; [unfold maxRetries in *; lia|].
      split; [intros k Hk; lia|].
      split; [right; now rewrite Hres|].
      unfold settle. rewrite Hres, Nat.sub_diag. cbn. now rewrite app_nil_r.
    + destruct (isRateLimitError e) eqn:Hrl;
        [destruct (Nat.ltb_spec attempt maxRetries) as [Hlt|Hge]|].
      * cbn [andb].
        destruct (IH (S attempt) (Some (if isError e then e else Error (message e)))
                     (slept ++ [backoff attempt])%list ltac:(lia) ltac:(lia))
          as (n & Hn & Hbefore & Hfinal & Hrun).
        exists n. split; [lia|]. split.
        { intros k Hk. destruct (Nat.eq_dec k attempt) as [->|Hne].
          - exists e. auto.
          - apply Hbefore. lia. }
        split; [exact Hfinal|].
        rewrite Hrun. f_equal.
        replace (n - attempt)%nat with (S (n - S attempt)) by lia.
        cbn [seq map]. now rewrite <- app_assoc.
      * cbn [andb]. exists attempt. split; [lia|].
        split; [intros k Hk; lia|].
        split; [left; lia|].
        unfold settle. rewrite Hres, Hrl, Nat.sub_diag. cbn. now rewrite app_nil_r.
      * cbn [andb]. exists attempt. split; [unfold maxRetries in *; lia|].
        split; [intros k Hk; lia|].
        split; [right; now rewrite Hres|].
        unfold settle. rewrite Hres, Hrl, Nat.sub_diag. cbn. now rewrite app_nil_r.
Qed.

(** The attempt at which a call stops is determined by the script. *)
Lemma final_attempt_unique n m :
  (forall k, (k < n)%nat -> rate_limited_at script k) -> final_at script n -> (n <= maxRetries)%nat ->
  (forall k, (k < m)%nat -> rate_limited_at script k) -> final_at script m -> (m <= maxRetries)%nat ->
  n = m.
Proof.
  intros Bn Fn Ln Bm Fm Lm.
  destruct (Nat.lt_trichotomy n m) as [Hlt|[Heq|Hgt]]; [exfalso|exact Heq|exfalso].
  - destruct (Bm n Hlt) as (e & He & Hrl).
    destruct Fn as [->|Fn]; [lia|]. rewrite He in Fn. congruence.
  - destruct (Bn m Hgt) as (e & He & Hrl).
    destruct Fm as [->|Fm]; [lia|]. rewrite He in Fm. congruence.
Qed.

(** A call that enters the loop stops at the first attempt that is final. *)
Lemma detect_stops_at env n :
  accepted_call imageUrl env ->
  (forall k, (k < n)%nat -> rate_limited_at script k) -> final_at script n -> (n <= maxRetries)%nat ->
  detectClothingItems script imageUrl env
  = mkRun (settle script imageUrl n) (map backoff (seq 0 n)) (S n).
Proof.
  intros Hcall Bn Fn Ln. rewrite detect_enters_loop by exact Hcall.
  destruct (retry_loop_shape maxRetries 0 None [] ltac:(lia) ltac:(lia))
    as (m & Hm & Bm & Fm & Hrun).
  change (maxRetries + 1)%nat with (S maxRetries). rewrite Hrun.
  assert (n = m) as <-.
  { apply final_attempt_unique; auto.
    - intros k Hk. apply Bm. lia.
    - lia. }
  now rewrite Nat.sub_0_r.
Qed.

(** Iterations beyond [maxRetries + 1] would change nothing: the loop
    always leaves through a [return] or a [throw] of its body, so the
    statements placed after it are never reached. *)
Lemma retry_loop_never_falls_through (extra : nat) :
  retry_loop script imageUrl (maxRetries + 1 + extra) 0 None []
  = retry_loop script imageUrl (maxRetries + 1) 0 None [].
Proof.
  destruct (retry_loop_shape (maxRetries + extra) 0 None [] ltac:(lia) ltac:(lia))
    as (n & Hn & Bn & Fn & Hrun).
  destruct (retry_loop_shape maxRetries 0 None [] ltac:(lia) ltac:(lia))
    as (m & Hm & Bm & Fm & Hrun').
  change (maxRetries + 1 + extra)%nat with (S (maxRetries + extra)).
  change (maxRetries + 1)%nat with (S maxRetries).
  rewrite Hrun, Hrun'.
  assert (n = m) as ->; [|reflexivity].
  apply final_attempt_unique; auto; try lia.
  - intros k Hk. apply Bn. lia.
  - intros k Hk. apply Bm. lia.
Qed.

End Runs.

(** C6. Whenever the classifier answers (at the first request or after
    rate-limited ones), the call returns the candidates of the response
    that pass the filter, in their order: a candidate is returned if and
    only if it has a non-empty description, a non-empty category, a
    bounding region and a confidence strictly above 0.5.  Confidences 0.9,
    0.3 and 0.6 leave the first and the third candidate, and a response of
    which nothing passes yields the empty sequence, not an error. *)
Theorem detect_filters_candidates
    (script : nat -> Completion DetectionResponse) (imageUrl : string)
    (env : ProcessEnv) (n : nat) (its : list DetectedItem.t) :
  accepted_call imageUrl env ->
  (n <= maxRetries)%nat ->
  (forall k, (k < n)%nat -> rate_limited_at script k) ->
  script n = Ok (mkDetectionResponse (Some its)) ->
  exists kept,
    outcome (detectClothingItems script imageUrl env) = Ok kept
    /\ kept = filter keep_item its
    /\ (forall item, In item kept <-> In item its /\ retained item)
    /\ ((forall item, In item its -> ~ retained item) -> kept = [])
    /\ filter keep_item [Fixtures.detected 0.9; Fixtures.detected 0.3; Fixtures.detected 0.6]
       = [Fixtures.detected 0.9; Fixtures.detected 0.6].
Proof.
  intros Hcall Hn Hbefore Hresp.
  assert (Hres : attempt_result script n = Ok (filter keep_item its)).
  { unfold attempt_result. rewrite Hresp. reflexivity. }
  exists (filter keep_item its).
  rewrite (detect_stops_at script imageUrl env n Hcall Hbefore) by
    (auto; right; now rewrite Hres).
  cbn [outcome]. unfold settle. rewrite Hres.
  split; [reflexivity|]. split; [reflexivity|]. split; [|split].
  - intros item. rewrite filter_In, keep_item_retained. reflexivity.
  - intros Hnone. induction its as [|item rest IH] in Hnone |- *; [reflexivity|].
    cbn [filter]. destruct (keep_item item) eqn:Hk.
    + apply keep_item_retained in Hk. exfalso. apply (Hnone item); [now left|exact Hk].
    + apply IH. intros i Hi. apply Hnone. now right.
  - reflexivity.
Qed.

Lemma detect_filters_candidates_witness :
  exists kept,
    outcome (detectClothingItems
               (Fixtures.always (Ok (mkDetectionResponse
                  (Some [Fixtures.detected 0.9; Fixtures.detected 0.3; Fixtures.detected 0.6]))))
               Fixtures.TEST_IMAGE_URL Fixtures.configured) = Ok kept
    /\ kept = [Fixtures.detected 0.9; Fixtures.detected 0.6].
Proof.
  destruct (detect_filters_candidates
              (Fixtures.always (Ok (mkDetectionResponse
                 (Some [Fixtures.detected 0.9; Fixtures.detected 0.3; Fixtures.detected 0.6]))))
              Fixtures.TEST_IMAGE_URL Fixtures.configured 0
              [Fixtures.detected 0.9; Fixtures.detected 0.3; Fixtures.detected 0.6])
    as (kept & Hout & Hkept & _).
  - split; reflexivity.
  - unfold maxRetries. lia.
  - intros k Hk. lia.
  - reflexivity.
  - exists kept. split; [exact Hout|]. rewrite Hkept. reflexivity.
Defined.

(** C2, as the code has it.  A call that passes the checks before the loop
    sends at most 4 requests; a request is repeated only after a failure
    classified as a rate limit, and the waits before the repeats are 1000,
    2000 and 4000 ms.  Three rate-limited requests followed by a success
    return that success after exactly these three waits.  Four rate-limited
    requests end the call after the 4th request, with nothing sent
    afterwards; what is thrown is the rate-limit-exceeded error when the
    last failure is an [Error] whose message carries no authentication
    marker.  A failure that is not classified as a rate limit is thrown at
    once, in its surfaced form, with no further request. *)
Theorem detect_retry_policy
    (script : nat -> Completion DetectionResponse) (imageUrl : string)
    (env : ProcessEnv) :
  accepted_call imageUrl env ->
  let run := detectClothingItems script imageUrl env in
  (exists n, (n <= 3)%nat
     /\ attempts run = S n
     /\ sleeps run = firstn n [1000; 2000; 4000]
     /\ (forall k, (k < n)%nat -> rate_limited_at script k)
     /\ outcome run = settle script imageUrl n)
  /\ (forall kept,
        (forall k, (k < 3)%nat -> rate_limited_at script k) ->
        attempt_result script 3 = Ok kept ->
        run = mkRun (Ok kept) [1000; 2000; 4000] 4)
  /\ (forall e,
        (forall k, (k < 3)%nat -> rate_limited_at script k) ->
        attempt_result script 3 = Throw e ->
        isRateLimitError e = true ->
        attempts run = 4%nat /\ sleeps run = [1000; 2000; 4000]
        /\ (isError e = true -> mentions_auth (message e) = false ->
            outcome run = Throw (Error (rate_limit_exceeded_prefix ++ message e))))
  /\ (forall n e,
        (n <= 3)%nat ->
        (forall k, (k < n)%nat -> rate_limited_at script k) ->
        attempt_result script n = Throw e ->
        isRateLimitError e = false ->
        run = mkRun (Throw (surface imageUrl e false)) (firstn n [1000; 2000; 4000]) (S n)).
Proof.
  intros Hcall run.
  assert (Hwaits : forall n, (n <= 3)%nat ->
                             map backoff (seq 0 n) = firstn n [1000; 2000; 4000]).
  { intros n Hn. destruct n as [|[|[|[|n]]]]; try reflexivity. lia. }
  split; [|split; [|split]].
  - subst run. rewrite detect_enters_loop by exact Hcall.
    destruct (retry_loop_shape script imageUrl maxRetries 0 None [] ltac:(lia) ltac:(lia))
      as (n & Hn & Bn & Fn & Hrun).
    change (maxRetries + 1)%nat with (S maxRetries). rewrite Hrun.
    unfold maxRetries in Hn. exists n. cbn [attempts sleeps outcome app].
    rewrite Nat.sub_0_r, Hwaits by lia.
    repeat split; try lia; try reflexivity.
    intros k Hk. apply Bn. lia.
  - intros kept Hbefore Hres. subst run.
    rewrite (detect_stops_at script imageUrl env 3 Hcall Hbefore);
      [|now left|unfold maxRetries; lia].
    unfold settle. rewrite Hres. reflexivity.
  - intros e Hbefore Hres Hrl. subst run.
    rewrite (detect_stops_at script imageUrl env 3 Hcall Hbefore);
      [|now left|unfold maxRetries; lia].
    cbn [attempts sleeps outcome]. split; [reflexivity|]. split; [reflexivity|].
    intros Herr Hauth. unfold settle, surface. now rewrite Hres, Hrl, Herr, Hauth.
  - intros n e Hn Hbefore Hres Hrl. subst run.
    rewrite (detect_stops_at script imageUrl env n Hcall Hbefore);
      [|right; now rewrite Hres|unfold maxRetries; lia].
    unfold settle. rewrite Hres, Hrl, Hwaits by lia. reflexivity.
Qed.

Lemma detect_retry_policy_witness :
  detectClothingItems
    (fun k => if Nat.ltb k 3 then Throw Fixtures.rate_limited
              else Ok (mkDetectionResponse (Some [Fixtures.detected 0.9])))
    Fixtures.TEST_IMAGE_URL Fixtures.configured
  = mkRun (Ok [Fixtures.detected 0.9]) [1000; 2000; 4000] 4.
Proof.
  refine (proj1 (proj2 (detect_retry_policy _ Fixtures.TEST_IMAGE_URL Fixtures.configured _))
            [Fixtures.detected 0.9] _ _).
  - split; reflexivity.
  - intros k Hk. exists Fixtures.rate_limited.
    destruct k as [|[|[|k]]]; [split; reflexivity ..|lia].
  - reflexivity.
Defined.

(** C2, as stated, fails: four requests that each fail with a thrown
    object of status 429, which the code classifies as a rate limit and
    retries three times, do not end in the rate-limit-exceeded error but
    in the general detection failure; and four that fail with an [Error]
    whose message names both a quota and the API key end, after the same
    three retries, in the authentication failure. *)
Lemma detect_retry_policy_counterexample :
  (isRateLimitError Fixtures.status_429 = true
   /\ detectClothingItems (Fixtures.always (Throw Fixtures.status_429))
        Fixtures.TEST_IMAGE_URL Fixtures.configured
      = mkRun (Throw (Error "Failed to detect clothing items in image: [object Object]"))
              [1000; 2000; 4000] 4
   /\ includes "Failed to detect clothing items in image: [object Object]"
               "rate limit exceeded" = false)
  /\ (isRateLimitError Fixtures.quota_for_key = true
      /\ detectClothingItems (Fixtures.always (Throw Fixtures.quota_for_key))
           Fixtures.TEST_IMAGE_URL Fixtures.configured
         = mkRun (Throw (Error "Gemini API authentication failed. Please check that GEMINI_API_KEY is set correctly in your .env.local file. Original error: quota exceeded for this API key"))
                 [1000; 2000; 4000] 4).
Proof. repeat split; reflexivity. Qed.

(** C5, on the code: after four rate-limited requests the error thrown is
    the one built inside the [catch] block.  It embeds the last underlying
    message but not the number of attempts; the message that does name the
    4 attempts is built after the loop, where no run arrives. *)
Theorem rate_limit_exhausted_message :
  let run :=
    detectClothingItems (Fixtures.always (Throw Fixtures.rate_limited))
      Fixtures.TEST_IMAGE_URL Fixtures.configured in
  let thrown := rate_limit_exceeded_prefix ++ message Fixtures.rate_limited in
  run = mkRun (Throw (Error thrown)) [1000; 2000; 4000] 4
  /\ includes thrown (message Fixtures.rate_limited) = true
  /\ includes thrown (decimal (attempts run)) = false
  /\ includes (message (after_loop (Some Fixtures.rate_limited))) "after 4 attempts" = true
  /\ (forall script imageUrl extra,
        retry_loop script imageUrl (maxRetries + 1 + extra) 0 None []
        = retry_loop script imageUrl (maxRetries + 1) 0 None []).
Proof.
  cbv zeta. split; [reflexivity|]. split; [reflexivity|].
  split; [reflexivity|]. split; [reflexivity|].
  intros script imageUrl extra. apply retry_loop_never_falls_through.
Qed.

End DetectionFacts.

(** ** Merging an image and its metadata into an existing item *)

Module MergeFacts.

Import ProcessImage.

(** *** De-duplication through a [Set] *)

Lemma existsb_eqb_In (v : string) (s : list string) :
  existsb (String.eqb v) s = true <-> In v s.
Proof.
  rewrite existsb_exists. split.
  - intros (x & Hx & Heq). apply String.eqb_eq in Heq. now subst.
  - intros Hin. exists v. split; [exact Hin | apply String.eqb_refl].
Qed.

Lemma Set_add_In (s : list string) (v x : string) :
  In x (Set_add s v) <-> In x s \/ x = v.
Proof.
  unfold Set_add. destruct (existsb (String.eqb v) s) eqn:Hmem.
  - apply existsb_eqb_In in Hmem. split; [auto|]. intros [H| ->]; assumption.
  - rewrite in_app_iff. cbn. intuition.
Qed.

Lemma Set_add_NoDup (s : list string) (v : string) :
  NoDup s -> NoDup (Set_add s v).
Proof.
  intros Hs. unfold Set_add. destruct (existsb (String.eqb v) s) eqn:Hmem; [exact Hs|].
  assert (Hnot : ~ In v s).
  { intros Hin. apply existsb_eqb_In in Hin. congruence. }
  clear Hmem. induction Hs as [|y s Hy Hs IH]; cbn.
  - constructor; [intros []|constructor].
  - constructor.
    + rewrite in_app_iff. cbn. intros [H|[H|[]]]; [auto|].
      subst. apply Hnot. now left.
    + apply IH. intros H. apply Hnot. now right.
Qed.

Lemma fold_Set_add_In (xs acc : list string) (x : string) :
  In x (fold_left Set_add xs acc) <-> In x acc \/ In x xs.
Proof.
  revert acc. induction xs as [|v xs IH]; intros acc; cbn.
  - intuition.
  - rewrite IH, Set_add_In. intuition.
Qed.

Lemma fold_Set_add_NoDup (xs acc : list string) :
  NoDup acc -> NoDup (fold_left Set_add xs acc).
Proof.
  revert acc. induction xs as [|v xs IH]; intros acc Hacc; cbn.
  - exact Hacc.
  - apply IH, Set_add_NoDup, Hacc.
Qed.

Lemma array_from_set_In (xs : list string) (x : string) :
  In x (array_from_set xs) <-> In x xs.
Proof. unfold array_from_set. rewrite fold_Set_add_In. cbn. intuition. Qed.

Lemma array_from_set_NoDup (xs : list string) : NoDup (array_from_set xs).
Proof. apply fold_Set_add_NoDup. constructor. Qed.

(** *** De-duplication through [indexOf] *)

Lemma indexOf_from_lower (a : list string) (v : string) (i : Z) :
  In v a -> i <= indexOf_from a v i.
Proof.
  revert i. induction a as [|h t IH]; intros i Hin; [destruct Hin|].
  cbn. destruct (String.eqb_spec h v) as [->|Hne]; [lia|].
  destruct Hin as [->|Hin]; [contradiction|].
  specialize (IH (i + 1) Hin). lia.
Qed.

(** The element at position [length pre] is the first occurrence of its
    value exactly when the value does not occur in [pre]. *)
Lemma indexOf_from_at (pre post : list string) (v : string) (i : Z) :
  Z.eqb (indexOf_from (pre ++ v :: post) v i) (i + Z.of_nat (List.length pre))
  = negb (existsb (String.eqb v) pre).
Proof.
  revert i. induction pre as [|h pre IH]; intros i.
  - cbn. rewrite String.eqb_refl. apply Z.eqb_eq. lia.
  - cbn [app indexOf_from existsb List.length]. rewrite (String.eqb_sym v h).
    destruct (String.eqb_spec h v) as [->|Hne]; cbn [orb negb].
    + apply Z.eqb_neq. lia.
    + rewrite <- (IH (i + 1)). f_equal. lia.
Qed.

Lemma filter_first_from_In (rest pre : list string) (x : string) :
  In x (filter_first_from (pre ++ rest) rest (Z.of_nat (List.length pre)))
  <-> In x rest /\ ~ In x pre.
Proof.
  revert pre. induction rest as [|v rest IH]; intros pre.
  - cbn. intuition.
  - cbn [filter_first_from]. unfold indexOf.
    pose proof (indexOf_from_at pre rest v 0) as Hat. cbn [Z.add] in Hat.
    rewrite Hat.
    assert (Hnext : (Z.of_nat (List.length pre) + 1)
                    = Z.of_nat (List.length (pre ++ [v]))).
    { rewrite length_app. cbn. lia. }
    assert (Happ : (pre ++ v :: rest = (pre ++ [v]) ++ rest)%list).
    { now rewrite <- app_assoc. }
    rewrite Hnext, Happ.
    destruct (existsb (String.eqb v) pre) eqn:Hmem; cbn [negb].
    + apply existsb_eqb_In in Hmem.
      rewrite IH, in_app_iff. cbn. split.
      * intros [Hin Hnot]. split; [now right|]. intros H. apply Hnot. now left.
      * intros [[->|Hin] Hnot]; [contradiction|].
        split; [exact Hin|]. intros [H|[->|[]]]; [contradiction|contradiction].
    + assert (Hnot : ~ In v pre).
      { intros Hin. apply existsb_eqb_In in Hin. congruence. }
      cbn [In]. rewrite IH, in_app_iff. cbn. split.
      * intros [->|[Hin Hno]]; [split; [now left|exact Hnot]|].
        split; [now right|]. intros H. apply Hno. now left.
      * intros [[->|Hin] Hno]; [now left|].
        destruct (String.eqb_spec v x) as [->|Hne]; [now left|].
        right. split; [exact Hin|]. intros [H|[H|[]]]; [contradiction|congruence].
Qed.

Lemma filter_first_from_NoDup (rest pre : list string) :
  NoDup (filter_first_from (pre ++ rest) rest (Z.of_nat (List.length pre))).
Proof.
  revert pre. induction rest as [|v rest IH]; intros pre.
  - constructor.
  - cbn [filter_first_from]. unfold indexOf.
    pose proof (indexOf_from_at pre rest v 0) as Hat. cbn [Z.add] in Hat.
    rewrite Hat.
    assert (Hnext : (Z.of_nat (List.length pre) + 1)
                    = Z.of_nat (List.length (pre ++ [v]))).
    { rewrite length_app. cbn. lia. }
    assert (Happ : (pre ++ v :: rest = (pre ++ [v]) ++ rest)%list).
    { now rewrite <- app_assoc. }
    rewrite Hnext, Happ.
    destruct (existsb (String.eqb v) pre); cbn [negb]; [apply IH|].
    constructor; [|apply IH].
    rewrite filter_first_from_In, in_app_iff. cbn. intros [_ Hnot].
    apply Hnot. right. now left.
Qed.

Lemma filter_first_In (a : list string) (x : string) :
  In x (filter_first a) <-> In x a.
Proof.
  unfold filter_first. rewrite (filter_first_from_In a [] x). cbn. intuition.
Qed.

Lemma filter_first_NoDup (a : list string) : NoDup (filter_first a).
Proof. exact (filter_first_from_NoDup a []). Qed.


(** *** The merge policy *)

Lemma or_else_non_empty_wins (new existing : option string) :
  non_empty_wins new existing (or_else new existing).
Proof.
  unfold non_empty_wins, or_else, truthy. split.
  - intros v -> Hne. destruct (String.eqb_spec v ""); [contradiction|reflexivity].
  - intros [->| ->]; reflexivity.
Qed.

(** C4, on the code.  Merging metadata takes [category], [sub_category]
    and [primary_color] from the new analysis only when non-empty and keeps
    the existing value otherwise, and makes [secondary_colors] and
    [vibe_tags] the de-duplicated union of both sides.  [estimated_season]
    is not treated like the scalar fields: it comes from the object spread,
    so a new value wins whenever it is present, the empty string included;
    an existing "all-season" is replaced by an empty new value. *)
Theorem mergeMetadata_policy (existingMetadata newMetadata : ClothingMetadata) :
  let merged := mergeMetadata existingMetadata newMetadata in
  (non_empty_wins (category newMetadata) (category existingMetadata) (category merged)
   /\ non_empty_wins (sub_category newMetadata) (sub_category existingMetadata)
        (sub_category merged)
   /\ non_empty_wins (primary_color newMetadata) (primary_color existingMetadata)
        (primary_color merged))
  /\ (deduplicated_union (secondary_colors existingMetadata) (secondary_colors newMetadata)
        (secondary_colors merged)
      /\ deduplicated_union (vibe_tags existingMetadata) (vibe_tags newMetadata)
           (vibe_tags merged))
  /\ estimated_season merged
     = spread (estimated_season existingMetadata) (estimated_season newMetadata)
  /\ (let blank := mkClothingMetadata (Some "") (Some "") (Some "") None None (Some "") in
      let merged' := mergeMetadata Fixtures.mockMetadata blank in
      category merged' = Some "top"
      /\ estimated_season Fixtures.mockMetadata = Some "all-season"
      /\ estimated_season merged' = Some "").
Proof.
  cbv zeta. split; [|split; [|split]].
  - cbn. auto using or_else_non_empty_wins.
  - split; eexists; (split; [reflexivity|]); split.
    + apply filter_first_NoDup.
    + intros x. rewrite filter_first_In, in_app_iff. reflexivity.
    + apply array_from_set_NoDup.
    + intros x. rewrite array_from_set_In, in_app_iff. reflexivity.
  - reflexivity.
  - repeat split; reflexivity.
Qed.

(** *** Image references *)

Lemma merged_image_urls_variants (existing : option ImageUrls) (newImageUrl : string) :
  variants (merged_image_urls existing newImageUrl)
  = Some (existing_variants existing ++ [newImageUrl])%list.
Proof.
  unfold merged_image_urls, existing_variants.
  destruct existing as [[p [vs|]]|]; reflexivity.
Qed.

Lemma merged_image_urls_primary (iu : ImageUrls) (newImageUrl : string) :
  primary (merged_image_urls (Some iu) newImageUrl) = primary iu.
Proof. reflexivity. Qed.

Lemma merge_all_variants (urls : list string) :
  forall iu, or_nil (variants (merge_all iu urls)) = (or_nil (variants iu) ++ urls)%list.
Proof.
  unfold merge_all. induction urls as [|u urls IH]; intros iu; cbn [fold_left].
  - now rewrite app_nil_r.
  - rewrite IH, merged_image_urls_variants. cbn [or_nil existing_variants].
    now rewrite <- app_assoc.
Qed.

Lemma merge_all_primary (urls : list string) :
  forall iu, primary (merge_all iu urls) = primary iu.
Proof.
  unfold merge_all. induction urls as [|u urls IH]; intros iu; cbn [fold_left].
  - reflexivity.
  - now rewrite IH.
Qed.

Section WithPlatform.
Context {W : Type} {P : Platform W}.

(** Once the existing row is read and the new image analysed, [mergeItem]
    issues exactly one [update], with the merged image references and
    metadata, and returns the row the update reports. *)
Lemma mergeItem_update (existingItemId newImageUrl userId : string)
    (w w1 w2 w3 : W) (existingItem : Row) (newMetadata : ClothingMetadata)
    (stamp : string) :
  select_by_id existingItemId userId w = (Ok (mkQueryResult (Some existingItem) None), w1) ->
  analyzeClothingImage newImageUrl None w1 = (Ok newMetadata, w2) ->
  now_iso w2 = (Ok stamp, w3) ->
  mergeItem existingItemId newImageUrl userId w
  = match update_item existingItemId
            (mkPatch (merged_image_urls (image_urls existingItem) newImageUrl)
                     (mergeMetadata (metadata_or_empty (ai_metadata existingItem)) newMetadata)
                     stamp) w3 with
    | (Ok updated, w4) =>
        (match error updated with
         | Some _ => Throw (Error "Failed to merge item")
         | None => Ok (data updated)
         end, w4)
    | (Throw e, w4) => (Throw e, w4)
    end.
Proof.
  intros Hsel Hana Hnow. unfold mergeItem, bind.
  rewrite Hsel. cbn [error data]. rewrite Hana, Hnow.
  destruct (update_item _ _ w3) as [[updated|e] w4]; [|reflexivity].
  destruct (error updated); reflexivity.
Qed.

End WithPlatform.

(** C1, as the code has it.  A merge pushes the new URL onto the end of the
    existing variants whether or not it is already among them, and leaves
    the primary reference of the item alone, whatever its variants are,
    after one merge and after any number of them: after merging the URLs
    [urls] one after the other, the variants are the old ones followed by
    [urls], so they grow by one with every merge (from none to one at the
    first), and the primary reference is the one the item had.  These
    image references are what [mergeItem] writes: the update it issues
    carries them. *)
Theorem merge_appends_variant (existing : option ImageUrls) (iu : ImageUrls)
    (newImageUrl : string) (urls : list string) :
  variants (merged_image_urls existing newImageUrl)
  = Some (existing_variants existing ++ [newImageUrl])%list
  /\ or_nil (variants (merge_all iu urls)) = (or_nil (variants iu) ++ urls)%list
  /\ List.length (or_nil (variants (merge_all iu urls)))
     = (List.length (or_nil (variants iu)) + List.length urls)%nat
  /\ merged_image_urls (Some (mkImageUrls (primary iu) (Some []))) newImageUrl
     = mkImageUrls (primary iu) (Some [newImageUrl])
  /\ primary (merged_image_urls (Some iu) newImageUrl) = primary iu
  /\ primary (merge_all iu urls) = primary iu
  /\ merged_image_urls existing newImageUrl
     = mkImageUrls match existing with Some e => primary e | None => "" end
                   (Some (existing_variants existing ++ [newImageUrl])%list)
  /\ (forall (W : Type) (P : Platform W) (existingItemId userId : string)
             (w w1 w2 w3 : W) (existingItem : Row) (newMetadata : ClothingMetadata)
             (stamp : string),
        select_by_id existingItemId userId w
        = (Ok (mkQueryResult (Some existingItem) None), w1) ->
        analyzeClothingImage newImageUrl None w1 = (Ok newMetadata, w2) ->
        now_iso w2 = (Ok stamp, w3) ->
        exists patch,
          patch_image_urls patch
          = merged_image_urls (image_urls existingItem) newImageUrl
          /\ mergeItem existingItemId newImageUrl userId w
             = match update_item existingItemId patch w3 with
               | (Ok updated, w4) =>
                   (match error updated with
                    | Some _ => Throw (Error "Failed to merge item")
                    | None => Ok (data updated)
                    end, w4)
               | (Throw e, w4) => (Throw e, w4)
               end).
Proof.
  split; [apply merged_image_urls_variants|].
  split; [apply merge_all_variants|].
  split; [now rewrite merge_all_variants, length_app|].
  split; [reflexivity|].
  split; [apply merged_image_urls_primary|].
  split; [apply merge_all_primary|].
  split; [destruct existing as [[p [vs|]]|]; reflexivity|].
  intros W P existingItemId userId w w1 w2 w3 existingItem newMetadata stamp
    Hsel Hana Hnow.
  eexists. split; [|exact (mergeItem_update _ _ _ _ _ _ _ _ _ _ Hsel Hana Hnow)].
  reflexivity.
Qed.

(** C1, as stated, fails: merging a URL that is already a variant is not a
    no-op but adds it a second time, and ingesting the same image three
    times leaves the stored item with that URL twice among its variants. *)
Lemma merge_appends_variant_counterexample :
  merged_image_urls
    (Some (mkImageUrls "https://example.com/first.jpg" (Some [Fixtures.TEST_IMAGE_URL])))
    Fixtures.TEST_IMAGE_URL
  = mkImageUrls "https://example.com/first.jpg"
                (Some [Fixtures.TEST_IMAGE_URL; Fixtures.TEST_IMAGE_URL])
  /\ (NoDup [Fixtures.TEST_IMAGE_URL; Fixtures.TEST_IMAGE_URL] -> False)
  /\ map image_urls
       (TableWorld.rows
          (snd (processClothingItems (P := TableWorld.table_platform Fixtures.oracles)
                  Fixtures.configured Fixtures.TEST_USER_ID
                  [Fixtures.candidate Fixtures.TEST_IMAGE_URL;
                   Fixtures.candidate Fixtures.TEST_IMAGE_URL;
                   Fixtures.candidate Fixtures.TEST_IMAGE_URL]
                  Fixtures.empty_table)))
     = [Some (mkImageUrls Fixtures.TEST_IMAGE_URL
                (Some [Fixtures.TEST_IMAGE_URL; Fixtures.TEST_IMAGE_URL]))].
Proof.
  split; [reflexivity|]. split; [|vm_compute; reflexivity].
  intros Hnd. inversion Hnd as [|x l Hnot _]. apply Hnot. now left.
Qed.

End MergeFacts.

(** ** The ingestion pipeline *)

Module PipelineFacts.

Import PerceptualHash ProcessImage.

Section AnyPlatform.
Context {W : Type} {P : Platform W}.

(** *** Fingerprinting *)

(** Whatever goes wrong inside [generatePerceptualHash], one error comes
    out. *)
Lemma generatePerceptualHash_throws (imageUrl : string)
    (boundingBox : option BoundingBox.t) (w w' : W) (e : JsError) :
  generatePerceptualHash imageUrl boundingBox w = (Throw e, w') ->
  e = Error "Failed to generate perceptual hash".
Proof.
  unfold generatePerceptualHash, try_catch.
  destruct (bind _ _ w) as [[h|e0] w0]; cbn; intros [= <- _]; reflexivity.
Qed.


(** *** One record per candidate *)

Lemma process_loop_acc (userId : string) (items : list ProcessItemInput.t) :
  forall results w,
    process_loop userId items results w
    = ((results ++ fst (process_loop userId items [] w))%list,
       snd (process_loop userId items [] w)).
Proof.
  induction items as [|item rest IH]; intros results w; cbn [process_loop app].
  - now rewrite app_nil_r.
  - destruct (resolveItem userId item w) as [[r|e] w1];
      rewrite IH, (IH [_]); cbn [fst snd]; now rewrite <- app_assoc.
Qed.

Lemma process_loop_cons (userId : string) (item : ProcessItemInput.t)
    (rest : list ProcessItemInput.t) (w : W) :
  process_loop userId (item :: rest) [] w
  = (outcome_record (fst (resolveItem userId item w))
       :: fst (process_loop userId rest [] (snd (resolveItem userId item w))),
     snd (process_loop userId rest [] (snd (resolveItem userId item w)))).
Proof.
  cbn [process_loop].
  destruct (resolveItem userId item w) as [[r|e] w1]; cbn [fst snd app outcome_record];
    now rewrite process_loop_acc.
Qed.

Lemma process_loop_length (userId : string) (items : list ProcessItemInput.t) :
  forall w, List.length (fst (process_loop userId items [] w)) = List.length items.
Proof.
  induction items as [|item rest IH]; intros w; [reflexivity|].
  rewrite process_loop_cons. cbn [fst List.length]. now rewrite IH.
Qed.

Lemma process_loop_nth (userId : string) (items : list ProcessItemInput.t) :
  forall i item w,
    nth_error items i = Some item ->
    nth_error (fst (process_loop userId items [] w)) i
    = Some (outcome_record
              (fst (resolveItem userId item (world_after userId (firstn i items) w))))
    /\ world_after userId (firstn (S i) items) w
       = snd (resolveItem userId item (world_after userId (firstn i items) w)).
Proof.
  unfold world_after.
  induction items as [|it rest IH]; intros i item w Hnth.
  - destruct i; discriminate.
  - rewrite process_loop_cons. destruct i as [|i].
    + injection Hnth as ->. cbn [firstn nth_error fst].
      rewrite process_loop_cons. cbn [process_loop fst snd]. auto.
    + cbn [nth_error] in Hnth. cbn [nth_error fst].
      change (firstn (S (S i)) (it :: rest)) with (it :: firstn (S i) rest).
      change (firstn (S i) (it :: rest)) with (it :: firstn i rest).
      rewrite !process_loop_cons. cbn [snd].
      apply IH, Hnth.
Qed.

(** C3. With the service client configured, [processClothingItems] never
    throws: it returns one record per candidate, in the order of the
    candidates.  The record at position [i] is the outcome of resolving the
    [i]-th candidate in the world the earlier candidates left; when that
    resolution throws, the record has the empty id and [merged = false],
    and the loop goes on with the next candidate from the world the failed
    one left. *)
Theorem processClothingItems_outcomes (env : ProcessEnv) (userId : string)
    (items : list ProcessItemInput.t) (w : W) :
  createServiceClient env = Ok tt ->
  exists results w',
    processClothingItems env userId items w = (Ok results, w')
    /\ List.length results = List.length items
    /\ (forall i item,
          nth_error items i = Some item ->
          let before := world_after userId (firstn i items) w in
          nth_error results i = Some (outcome_record (fst (resolveItem userId item before)))
          /\ (forall e, fst (resolveItem userId item before) = Throw e ->
                        nth_error results i = Some failure)
          /\ world_after userId (firstn (S i) items) w
             = snd (resolveItem userId item before))
    /\ world_after userId [] w = w /\ world_after userId items w = w'
    /\ ProcessedItem.id failure = "" /\ ProcessedItem.merged failure = false.
Proof.
  intros Hclient.
  exists (fst (process_loop userId items [] w)), (snd (process_loop userId items [] w)).
  split; [|split; [|split; [|split; [reflexivity|split; [reflexivity|]]]]].
  - unfold processClothingItems. rewrite Hclient.
    now destruct (process_loop userId items [] w).
  - apply process_loop_length.
  - intros i item Hnth before.
    destruct (process_loop_nth userId items i item w Hnth) as [Hrec Hworld].
    fold before in Hrec, Hworld.
    split; [exact Hrec|]. split; [|exact Hworld].
    intros e He. now rewrite Hrec, He.
  - split; reflexivity.
Qed.

End AnyPlatform.



Lemma processClothingItems_outcomes_witness :
  exists results w',
    processClothingItems (P := TableWorld.table_platform Fixtures.oracles)
      Fixtures.configured Fixtures.TEST_USER_ID
      [Fixtures.candidate "https://example.com/missing.jpg";
       Fixtures.candidate Fixtures.TEST_IMAGE_URL]
      Fixtures.empty_table
    = (Ok results, w')
    /\ results = [failure; ProcessedItem.mk "item-1" false None None].
Proof.
  destruct (processClothingItems_outcomes (P := TableWorld.table_platform Fixtures.oracles)
              Fixtures.configured Fixtures.TEST_USER_ID
              [Fixtures.candidate "https://example.com/missing.jpg";
               Fixtures.candidate Fixtures.TEST_IMAGE_URL]
              Fixtures.empty_table eq_refl)
    as (results & w' & Hrun & _).
  exists results, w'. split; [exact Hrun|].
  vm_compute in Hrun. now injection Hrun as <- _.
Defined.

End PipelineFacts.

(** ** The table of items *)

Module TableFacts.

Import PerceptualHash ProcessImage TableWorld.

(** Unfold the operations of the reference environment. *)
Ltac table_ops :=
  cbn [fetch sharp_metadata sharp_raw analyzeClothingImage now_iso select_by_hash
       select_with_embedding insert_item select_by_id update_item
       table_platform pure_op] in *.

Lemma single_data (matching : list Row) (r : Row) :
  data (single matching) = Some r -> matching = [r].
Proof.
  destruct matching as [|x [|y rest]]; cbn; try discriminate.
  now intros [= ->].
Qed.

Lemma single_error (matching : list Row) :
  error (single matching) = None -> exists r, matching = [r].
Proof.
  destruct matching as [|x [|y rest]]; cbn; try discriminate.
  intros _. now exists x.
Qed.

Section Invariant.

Variable o : Oracles.
Hypothesis fetch_rejects_empty : is_ok (o_fetch o "") = false.

Local Abbreviation TP := (table_platform o).

(** Fingerprinting does not touch the table, and succeeds only for a URL
    that could be fetched. *)
Lemma generatePerceptualHash_table (imageUrl : string)
    (boundingBox : option BoundingBox.t) (w w' : Table) (c : Completion string) :
  generatePerceptualHash (P := TP) imageUrl boundingBox w = (c, w') ->
  w' = w /\ (is_ok c = true -> imageUrl <> "").
Proof.
  unfold generatePerceptualHash, try_catch, bind, throw, ret. table_ops.
  destruct (o_fetch o imageUrl) as [response|e] eqn:Hfetch.
  - assert (Hurl : imageUrl <> "").
    { intros ->. rewrite Hfetch in fetch_rejects_empty. discriminate. }
    destruct (negb (Response.ok response)).
    + intros [= <- <-]. auto.
    + destruct (o_metadata o _) as [metadata|e].
      * destruct (o_raw o _ _) as [processed|e]; intros [= <- <-]; auto.
      * intros [= <- <-]. auto.
  - intros [= <- <-]. split; [reflexivity|discriminate].
Qed.

Lemma apply_patch_primary_set (i : string) (p : Patch) (r : Row) :
  primary (patch_image_urls p) <> "" -> primary_set r -> primary_set (apply_patch i p r).
Proof.
  intros Hp Hr. unfold apply_patch. destruct (has_id i r); [|exact Hr].
  exists (patch_image_urls p). split; [reflexivity|exact Hp].
Qed.

Lemma mergeItem_primary_set (existingItemId newImageUrl userId : string) (w : Table) :
  all_primary_set w ->
  all_primary_set (snd (mergeItem (P := TP) existingItemId newImageUrl userId w)).
Proof.
  intros Hinv. unfold mergeItem, bind, throw, ret. table_ops.
  destruct (single (filter (has_id_user existingItemId userId) (rows w)))
    as [[existingItem|] [err|]] eqn:Hsingle; cbn [error data snd]; try exact Hinv.
  assert (Hin : In existingItem (rows w)).
  { pose proof (single_data _ existingItem
                  (eq_trans (f_equal data Hsingle) eq_refl)) as Hl.
    assert (In existingItem (filter (has_id_user existingItemId userId) (rows w)))
      by (rewrite Hl; now left).
    now apply filter_In in H. }
  destruct (proj1 (Forall_forall _ _) Hinv _ Hin) as (iu & Hiu & Hprimary).
  destruct (o_analyze o newImageUrl None) as [newMetadata|e]; cbn [snd]; [|exact Hinv].
  match goal with
  | |- context [match error ?q with _ => _ end] => destruct (error q); cbn [snd]
  end;
    (unfold all_primary_set; cbn [rows]; apply Forall_map;
     refine (Forall_impl _ _ Hinv); intros r Hr;
     apply apply_patch_primary_set; [|exact Hr];
     cbn [patch_image_urls]; rewrite Hiu; exact Hprimary).
Qed.

Lemma resolveItem_primary_set (userId : string) (item : ProcessItemInput.t) (w : Table) :
  all_primary_set w -> all_primary_set (snd (resolveItem (P := TP) userId item w)).
Proof.
  intros Hinv. unfold resolveItem, bind.
  destruct (generatePerceptualHash _ _ w) as [[perceptualHash|e] w0] eqn:Hhash;
    apply generatePerceptualHash_table in Hhash as [-> Hurl]; [|exact Hinv].
  specialize (Hurl eq_refl). table_ops.
  destruct (data (single (filter (has_hash userId perceptualHash) (rows w))))
    as [exactMatch|].
  - pose proof (mergeItem_primary_set (id exactMatch) (ProcessItemInput.imageUrl item)
                  userId w Hinv) as Hmerge.
    destruct (mergeItem _ _ _ w) as [[[m|]|e] w1]; exact Hmerge.
  - destruct (o_analyze o _ _) as [metadata|e]; cbn [snd]; [|exact Hinv].
    unfold all_primary_set. cbn [single error data ret snd rows].
    apply Forall_app. split; [exact Hinv|].
    constructor; [|constructor].
    eexists. split; [reflexivity|]. exact Hurl.
Qed.

Lemma process_loop_primary_set (userId : string) (items : list ProcessItemInput.t) :
  forall results w,
    all_primary_set w ->
    all_primary_set (snd (process_loop (P := TP) userId items results w)).
Proof.
  induction items as [|item rest IH]; intros results w Hinv; cbn [process_loop].
  - exact Hinv.
  - pose proof (resolveItem_primary_set userId item w Hinv) as Hstep.
    destruct (resolveItem userId item w) as [[r|e] w1]; apply IH, Hstep.
Qed.

Lemma unique_id_row (l : list Row) (a b : Row) :
  NoDup (map id l) -> In a l -> In b l -> id a = id b -> a = b.
Proof.
  induction l as [|r l IH]; cbn; intros Hnd Ha Hb Hid; [destruct Ha|].
  inversion Hnd as [|x xs Hnot Hnd' [Hx Hxs]]; subst.
  destruct Ha as [->|Ha], Hb as [->|Hb]; auto.
  - exfalso. apply Hnot. rewrite Hid. now apply in_map.
  - exfalso. apply Hnot. rewrite <- Hid. now apply in_map.
Qed.

(** A merge rewrites the item it read, and its primary reference stays. *)
Lemma mergeItem_keeps_primaries (existingItemId newImageUrl userId : string) (w : Table) :
  unique_ids w -> all_primary_set w ->
  map item_primary (rows (snd (mergeItem (P := TP) existingItemId newImageUrl userId w)))
  = map item_primary (rows w).
Proof.
  intros Hids Hinv. unfold mergeItem, bind, throw, ret. table_ops.
  destruct (single (filter (has_id_user existingItemId userId) (rows w)))
    as [[existingItem|] [err|]] eqn:Hsingle; cbn [error data snd]; try reflexivity.
  assert (Hfound : In existingItem (rows w)
                   /\ has_id_user existingItemId userId existingItem = true).
  { pose proof (single_data _ existingItem
                  (eq_trans (f_equal data Hsingle) eq_refl)) as Hl.
    apply filter_In. rewrite Hl. now left. }
  destruct Hfound as [Hin Hmatch].
  apply andb_prop in Hmatch as [Hid _]. apply String.eqb_eq in Hid.
  destruct (proj1 (Forall_forall _ _) Hinv _ Hin) as (iu & Hiu & _).
  destruct (o_analyze o newImageUrl None) as [newMetadata|e]; cbn [snd]; [|reflexivity].
  match goal with
  | |- context [match error ?q with _ => _ end] => destruct (error q); cbn [snd]
  end;
    (cbn [rows]; rewrite map_map; apply map_ext_in; intros r Hr;
     unfold apply_patch, has_id;
     destruct (String.eqb_spec (id r) existingItemId) as [Hr_id|_]; [|reflexivity];
     assert (r = existingItem) as ->
       by (apply (unique_id_row (rows w)); [exact Hids|exact Hr|exact Hin|congruence]);
     unfold item_primary; cbn [id image_urls patch_image_urls option_map];
     now rewrite Hiu).
Qed.

(** Resolving a candidate leaves every stored item with the primary
    reference it had; at most it adds items at the end. *)
Lemma resolveItem_keeps_primaries (userId : string) (item : ProcessItemInput.t) (w : Table) :
  unique_ids w -> all_primary_set w ->
  exists added,
    map item_primary (rows (snd (resolveItem (P := TP) userId item w)))
    = (map item_primary (rows w) ++ added)%list.
Proof.
  intros Hids Hinv. unfold resolveItem, bind.
  destruct (generatePerceptualHash _ _ w) as [[perceptualHash|e] w0] eqn:Hhash;
    apply generatePerceptualHash_table in Hhash as [-> _];
    [|exists []; now rewrite app_nil_r].
  table_ops.
  destruct (data (single (filter (has_hash userId perceptualHash) (rows w))))
    as [exactMatch|].
  - pose proof (mergeItem_keeps_primaries (id exactMatch)
                  (ProcessItemInput.imageUrl item) userId w Hids Hinv) as Hmerge.
    exists []. rewrite app_nil_r.
    destruct (mergeItem _ _ _ w) as [[[m|]|e] w1]; exact Hmerge.
  - destruct (o_analyze o _ _) as [metadata|e]; cbn [snd];
      [|exists []; now rewrite app_nil_r].
    cbn [single error data ret snd rows]. rewrite map_app. now eexists.
Qed.

(** A candidate that is filed as a new item is stored with its own URL as
    primary reference and no variants. *)
Lemma resolveItem_created (userId : string) (item : ProcessItemInput.t)
    (w w' : Table) (record : ProcessedItem.t) :
  resolveItem (P := TP) userId item w = (Ok record, w') ->
  ProcessedItem.merged record = false ->
  exists r, rows w' = (rows w ++ [r])%list
            /\ id r = ProcessedItem.id record
            /\ image_urls r = Some (mkImageUrls (ProcessItemInput.imageUrl item) (Some [])).
Proof.
  unfold resolveItem, bind.
  destruct (generatePerceptualHash _ _ w) as [[perceptualHash|e] w0] eqn:Hhash;
    apply generatePerceptualHash_table in Hhash as [-> _]; [|discriminate].
  table_ops.
  destruct (data (single (filter (has_hash userId perceptualHash) (rows w))))
    as [exactMatch|].
  - destruct (mergeItem _ _ _ w) as [[[m|]|e] w1]; cbn;
      intros [= <- <-]; discriminate.
  - destruct (o_analyze o _ _) as [metadata|e]; [|discriminate].
    cbn. intros [= <- <-] _. eexists. repeat split.
Qed.

End Invariant.

(** C9. In the table of items, with a network that cannot fetch the empty
    URL: when every stored item has a non-empty primary image reference,
    so has every item after a batch has been processed, whatever the batch.
    A candidate filed as a new item is stored with its own image URL, which
    is not empty, as primary reference.  Resolving a candidate, by merge or
    otherwise, leaves every stored item with the primary reference it had,
    and merging any number of images into an item's references leaves
    their primary as it was. *)
Theorem primary_always_set (o : Oracles) (env : ProcessEnv) (userId : string)
    (items : list ProcessItemInput.t) (w : Table) :
  is_ok (o_fetch o "") = false ->
  all_primary_set w ->
  all_primary_set (snd (processClothingItems (P := table_platform o) env userId items w))
  /\ (forall item record w0 w',
        resolveItem (P := table_platform o) userId item w0 = (Ok record, w') ->
        ProcessedItem.merged record = false ->
        exists r, rows w' = (rows w0 ++ [r])%list
                  /\ id r = ProcessedItem.id record
                  /\ image_urls r
                     = Some (mkImageUrls (ProcessItemInput.imageUrl item) (Some []))
                  /\ ProcessItemInput.imageUrl item <> "")
  /\ (forall item w0,
        unique_ids w0 -> all_primary_set w0 ->
        exists added,
          map item_primary (rows (snd (resolveItem (P := table_platform o) userId item w0)))
          = (map item_primary (rows w0) ++ added)%list)
  /\ (forall iu urls, primary (merge_all iu urls) = primary iu).
Proof.
  intros Hfetch Hinv. split; [|split; [|split]].
  - unfold processClothingItems. destruct (createServiceClient env); [|exact Hinv].
    pose proof (process_loop_primary_set o Hfetch userId items [] w Hinv) as Hloop.
    now destruct (process_loop userId items [] w).
  - intros item record w0 w' Hrun Hnew.
    destruct (resolveItem_created o Hfetch userId item w0 w' record Hrun Hnew)
      as (r & Hrows & Hid & Hurls).
    exists r. repeat split; try assumption.
    unfold resolveItem, bind in Hrun.
    destruct (generatePerceptualHash _ _ w0) as [[perceptualHash|e] w1] eqn:Hhash;
      [|discriminate].
    apply (generatePerceptualHash_table o Hfetch) in Hhash as [_ Hurl]. now apply Hurl.
  - intros item w0. apply (resolveItem_keeps_primaries o Hfetch).
  - intros iu urls. apply MergeFacts.merge_all_primary.
Qed.

Lemma primary_always_set_witness :
  all_primary_set
    (snd (processClothingItems (P := table_platform Fixtures.oracles)
            Fixtures.configured Fixtures.TEST_USER_ID
            [Fixtures.candidate Fixtures.TEST_IMAGE_URL;
             Fixtures.candidate "";
             Fixtures.candidate Fixtures.TEST_IMAGE_URL]
            Fixtures.empty_table)).
Proof.
  refine (proj1 (primary_always_set Fixtures.oracles Fixtures.configured
                   Fixtures.TEST_USER_ID _ Fixtures.empty_table eq_refl _)).
  constructor.
Defined.

End TableFacts.

(** ** The distance between signatures *)

Module DistanceFacts.

Import PerceptualHash.

Lemma mismatches_sym (a : string) : forall b, mismatches a b = mismatches b a.
Proof.
  induction a as [|c1 a IH]; intros [|c2 b]; cbn; try reflexivity.
  now rewrite IH, Ascii.eqb_sym.
Qed.

Lemma mismatches_zero (a : string) :
  forall b, String.length a = String.length b -> mismatches a b = 0%nat -> a = b.
Proof.
  induction a as [|c1 a IH]; intros [|c2 b] Hlen Hz; try discriminate; [reflexivity|].
  cbn in Hlen, Hz. destruct (Ascii.eqb_spec c1 c2) as [->|Hne]; [|discriminate].
  f_equal. apply IH; [lia | exact Hz].
Qed.

Lemma mismatches_refl (a : string) : mismatches a a = 0%nat.
Proof.
  induction a as [|c a IH]; cbn; [reflexivity|]. now rewrite Ascii.eqb_refl, IH.
Qed.

Lemma mismatches_triangle (a : string) :
  forall b c,
    String.length a = String.length b -> String.length b = String.length c ->
    (mismatches a c <= mismatches a b + mismatches b c)%nat.
Proof.
  induction a as [|x a IH]; intros [|y b] [|z c] Hab Hbc; try discriminate; cbn; [lia|].
  cbn in Hab, Hbc. specialize (IH b c ltac:(lia) ltac:(lia)).
  destruct (Ascii.eqb_spec x z), (Ascii.eqb_spec x y), (Ascii.eqb_spec y z);
    subst; try contradiction; lia.
Qed.

Lemma hammingDistance_Ok (a b : string) (d : nat) :
  hammingDistance a b = Ok d ->
  String.length a = String.length b /\ d = mismatches a b.
Proof.
  unfold hammingDistance.
  destruct (Nat.eqb_spec (String.length a) (String.length b)) as [Heq|Hne];
    cbn [negb]; [|discriminate].
  intros [= <-]. split; [exact Heq|].
  now apply PerceptualHashFacts.hamming_loop_mismatches.
Qed.

Lemma hammingDistance_same_length (a b : string) :
  String.length a = String.length b -> hammingDistance a b = Ok (mismatches a b).
Proof.
  intros Heq. unfold hammingDistance.
  rewrite (proj2 (Nat.eqb_eq _ _) Heq). cbn [negb].
  now rewrite PerceptualHashFacts.hamming_loop_mismatches.
Qed.

(** [hammingDistance] does not depend on the order of its arguments, the
    thrown error included. *)
Theorem hammingDistance_symmetric (a b : string) :
  hammingDistance a b = hammingDistance b a.
Proof.
  destruct (Nat.eq_dec (String.length a) (String.length b)) as [Heq|Hne].
  - rewrite (hammingDistance_same_length a b Heq),
      (hammingDistance_same_length b a (eq_sym Heq)).
    now rewrite mismatches_sym.
  - unfold hammingDistance.
    rewrite (proj2 (Nat.eqb_neq _ _) Hne).
    rewrite (proj2 (Nat.eqb_neq _ _) (fun H => Hne (eq_sym H))). reflexivity.
Qed.

(** The distance is 0 exactly between a signature and itself. *)
Theorem hammingDistance_zero_iff (a b : string) :
  hammingDistance a b = Ok 0%nat <-> a = b.
Proof.
  split.
  - intros H. apply hammingDistance_Ok in H as [Hlen Hz].
    now apply mismatches_zero.
  - intros <-. rewrite hammingDistance_same_length by reflexivity.
    now rewrite mismatches_refl.
Qed.

(** A distance never exceeds the length of the signatures, and it obeys the
    triangle inequality: going through a third signature of the same length
    cannot be shorter. *)
Theorem hammingDistance_metric (a b c : string) (dab dbc : nat) :
  hammingDistance a b = Ok dab ->
  hammingDistance b c = Ok dbc ->
  (dab <= String.length a)%nat
  /\ exists dac, hammingDistance a c = Ok dac /\ (dac <= dab + dbc)%nat.
Proof.
  intros Hab Hbc.
  apply hammingDistance_Ok in Hab as [Lab ->].
  apply hammingDistance_Ok in Hbc as [Lbc ->].
  split; [apply PerceptualHashFacts.mismatches_bound|].
  exists (mismatches a c). split.
  - apply hammingDistance_same_length. congruence.
  - now apply mismatches_triangle.
Qed.

Lemma hammingDistance_metric_witness :
  (1 <= 8)%nat
  /\ exists dac, hammingDistance "10101010" "00000000" = Ok dac /\ (dac <= 1 + 5)%nat.
Proof.
  exact (hammingDistance_metric "10101010" "10101011" "00000000" 1 5 eq_refl eq_refl).
Defined.

End DistanceFacts.

(** ** The signature of an image *)

Module SignatureFacts.

Import PerceptualHash Signature.

Lemma append_assoc (a b c : string) : ((a ++ b) ++ c = a ++ (b ++ c))%string.
Proof. induction a as [|x a IH]; cbn; [reflexivity|now rewrite IH]. Qed.

Lemma append_empty_r (a : string) : (a ++ "" = a)%string.
Proof. induction a as [|x a IH]; cbn; [reflexivity|now rewrite IH]. Qed.

Lemma hash_loop_bits (avg : Q) (processed : list Z) :
  forall hash,
    fold_left
      (fun hash p => hash ++ (if Qle_bool (inject_Z p) avg then "0" else "1"))%string
      processed hash
    = (hash ++ bits avg processed)%string.
Proof.
  induction processed as [|p rest IH]; intros hash; cbn [fold_left bits].
  - now rewrite append_empty_r.
  - rewrite IH, append_assoc. reflexivity.
Qed.

Lemma hash_of_pixels_bits (processed : list Z) :
  hash_of_pixels processed = bits (average processed) processed.
Proof. unfold hash_of_pixels. now rewrite hash_loop_bits. Qed.

Lemma bits_get (avg : Q) (processed : list Z) :
  forall i,
    String.get i (bits avg processed)
    = match nth_error processed i with
      | Some p => Some (if Qle_bool (inject_Z p) avg then "0"%char else "1"%char)
      | None => None
      end.
Proof.
  induction processed as [|p rest IH]; intros i; cbn [bits].
  - destruct i; reflexivity.
  - unfold bit. destruct i as [|i]; cbn [nth_error].
    + destruct (Qle_bool (inject_Z p) avg); reflexivity.
    + rewrite <- IH. destruct (Qle_bool (inject_Z p) avg); reflexivity.
Qed.

Lemma bits_length (avg : Q) (processed : list Z) :
  String.length (bits avg processed) = List.length processed.
Proof.
  induction processed as [|p rest IH]; cbn [bits List.length]; [reflexivity|].
  unfold bit. destruct (Qle_bool (inject_Z p) avg); cbn; now rewrite IH.
Qed.

(** The comparison with the average, without the division. *)
Lemma below_average (p sum : Z) (n : positive) :
  Qle_bool (inject_Z p) (inject_Z sum / inject_Z (Z.pos n))%Q = true
  <-> p * Z.pos n <= sum.
Proof.
  rewrite Qle_bool_iff. unfold Qle, Qdiv, Qmult, Qinv, inject_Z. cbn.
  rewrite !Z.mul_1_r. reflexivity.
Qed.

Lemma total_acc (processed : list Z) :
  forall acc, fold_left Z.add processed acc = acc + total processed.
Proof.
  unfold total. induction processed as [|p rest IH]; intros acc; cbn [fold_left].
  - lia.
  - rewrite (IH (acc + p)), (IH (0 + p)). lia.
Qed.

Lemma total_cons (p : Z) (rest : list Z) : total (p :: rest) = p + total rest.
Proof. unfold total at 1. cbn [fold_left]. now rewrite total_acc. Qed.

(** Some pixel is not above the average. *)
Lemma some_pixel_below (processed : list Z) :
  processed <> [] ->
  exists i p, nth_error processed i = Some p
              /\ p * Z.of_nat (List.length processed) <= total processed.
Proof.
  induction processed as [|x rest IH]; intros Hne; [contradiction|].
  destruct rest as [|y rest'].
  - exists 0%nat, x. split; [reflexivity|]. rewrite total_cons. cbn. lia.
  - destruct (IH ltac:(discriminate)) as (i & p & Hnth & Hle).
    rewrite total_cons. set (rest := y :: rest') in *.
    change (List.length (x :: rest)) with (S (List.length rest)).
    rewrite Nat2Z.inj_succ.
    destruct (Z_le_gt_dec x p) as [Hxp|Hxp].
    + exists 0%nat, x. split; [reflexivity|]. nia.
    + exists (S i), p. split; [exact Hnth|]. nia.
Qed.

Lemma bits_binary (processed : list Z) (avg : Q) :
  is_binary (bits avg processed).
Proof.
  intros i c. rewrite bits_get.
  destruct (nth_error processed i) as [p|]; [|discriminate].
  destruct (Qle_bool _ _); intros [= <-]; auto.
Qed.

(** The signature has one character per pixel, each of them 0 or 1. *)
Theorem hash_of_pixels_binary (processed : list Z) :
  String.length (hash_of_pixels processed) = List.length processed
  /\ is_binary (hash_of_pixels processed).
Proof.
  rewrite hash_of_pixels_bits. split; [apply bits_length|apply bits_binary].
Qed.

(** Character [i] of the signature is 1 exactly when pixel [i], multiplied
    by the number of pixels, exceeds the sum of all pixels. *)
Theorem hash_of_pixels_bit (processed : list Z) (i : nat) (p : Z) :
  nth_error processed i = Some p ->
  String.get i (hash_of_pixels processed)
  = Some (if Z.ltb (total processed) (p * Z.of_nat (List.length processed))
          then "1"%char else "0"%char).
Proof.
  intros Hnth. rewrite hash_of_pixels_bits, bits_get, Hnth.
  unfold average.
  destruct (List.length processed) as [|n] eqn:Hlen.
  - destruct processed; [destruct i; discriminate|discriminate].
  - rewrite <- Hlen.
    assert (Hpos : exists m, Z.of_nat (List.length processed) = Z.pos m).
    { rewrite Hlen. now exists (Pos.of_succ_nat n). }
    destruct Hpos as (m & ->).
    destruct (Z.ltb_spec (total processed) (p * Z.pos m)) as [Hlt|Hge].
    + destruct (Qle_bool _ _) eqn:Hq; [|reflexivity].
      apply below_average in Hq. lia.
    + rewrite (proj2 (below_average p (total processed) m) Hge). reflexivity.
Qed.

Lemma hash_of_pixels_bit_witness :
  String.get 2 (hash_of_pixels Fixtures.mockPixels) = Some "1"%char.
Proof. exact (hash_of_pixels_bit Fixtures.mockPixels 2 200 eq_refl). Defined.

Lemma total_uniform (p : Z) (processed : list Z) :
  (forall x, In x processed -> x = p) ->
  total processed = p * Z.of_nat (List.length processed).
Proof.
  induction processed as [|x rest IH]; intros Hall.
  - cbn. lia.
  - rewrite total_cons, IH by (intros y Hy; apply Hall; now right).
    rewrite (Hall x) by now left.
    change (List.length (p :: rest)) with (S (List.length rest)). lia.
Qed.

Lemma bit_below (processed : list Z) (i : nat) (p : Z) :
  nth_error processed i = Some p ->
  p * Z.of_nat (List.length processed) <= total processed ->
  String.get i (hash_of_pixels processed) = Some "0"%char.
Proof.
  intros Hnth Hle. rewrite hash_of_pixels_bits, bits_get, Hnth. unfold average.
  destruct (List.length processed) as [|n] eqn:Hlen;
    [destruct processed; [destruct i; discriminate|discriminate]|].
  change (Z.of_nat (S n)) with (Z.pos (Pos.of_succ_nat n)) in *.
  now rewrite (proj2 (below_average p (total processed) _) Hle).
Qed.

(** The signature of a non-empty pixel buffer is never all ones: some pixel
    is not above the average, and its character is 0.  When all pixels are
    equal, none is above the average and every character is 0. *)
Theorem hash_of_pixels_has_zero (processed : list Z) :
  processed <> [] ->
  (exists i, String.get i (hash_of_pixels processed) = Some "0"%char)
  /\ (forall p, (forall x, In x processed -> x = p) ->
       forall i, (i < List.length processed)%nat ->
                 String.get i (hash_of_pixels processed) = Some "0"%char).
Proof.
  intros Hne. split.
  - destruct (some_pixel_below processed Hne) as (i & p & Hnth & Hle).
    exists i. now apply (bit_below processed i p).
  - intros p Hall i Hi.
    destruct (nth_error processed i) as [x|] eqn:Hnth;
      [|apply nth_error_None in Hnth; lia].
    apply (bit_below processed i x Hnth).
    rewrite (total_uniform p processed Hall), (Hall x (nth_error_In _ _ Hnth)). lia.
Qed.

Lemma hash_of_pixels_has_zero_witness :
  (exists i, String.get i (hash_of_pixels [7; 7; 7; 7]) = Some "0"%char)
  /\ (forall p, (forall x, In x [7; 7; 7; 7] -> x = p) ->
       forall i, (i < List.length [7; 7; 7; 7])%nat ->
                 String.get i (hash_of_pixels [7; 7; 7; 7]) = Some "0"%char).
Proof. apply hash_of_pixels_has_zero. discriminate. Defined.

End SignatureFacts.

(** ** More on the detection gateway *)

Module GatewayFacts.

Import Detection Waits.

(** *** Substrings *)

Lemma prefix_refl (s : string) : String.prefix s s = true.
Proof.
  induction s as [|c s IH]; cbn; [reflexivity|].
  destruct (Ascii.ascii_dec c c); [exact IH|contradiction].
Qed.

Lemma includes_refl (s : string) : includes s s = true.
Proof. destruct s; cbn [includes]; now rewrite prefix_refl. Qed.

Lemma includes_append_r (a b : string) : includes (a ++ b) b = true.
Proof.
  induction a as [|c a IH]; cbn [append].
  - apply includes_refl.
  - cbn [includes]. rewrite IH. apply orb_true_r.
Qed.

(** *** What reaches the caller *)

(** Whatever the [catch] block throws carries the text of the failure it
    caught. *)
Lemma surface_keeps_message (imageUrl : string) (e : JsError) (isRateLimit : bool) :
  includes (message (surface imageUrl e isRateLimit)) (message e) = true.
Proof.
  unfold surface.
  destruct (isError e); [|apply includes_append_r].
  destruct (mentions_auth (message e)); [apply includes_append_r|].
  destruct isRateLimit; [apply includes_append_r|].
  destruct (includes (message e) "image"
            && (includes (message e) "invalid" || includes (message e) "not found")).
  - cbn [message Error]. rewrite <- !SignatureFacts.append_assoc.
    apply includes_append_r.
  - destruct (includes (message e) "Failed to detect clothing items").
    + apply includes_refl.
    + apply includes_append_r.
Qed.

Section Calls.

Variable script : nat -> Completion DetectionResponse.
Variable imageUrl : string.

(** Every error a call throws after its first request embeds the message
    of the failure of its last request, whichever branch of the error
    handling built it. *)
Theorem detect_error_keeps_diagnostic (env : ProcessEnv) (thrown : JsError) :
  accepted_call imageUrl env ->
  outcome (detectClothingItems script imageUrl env) = Throw thrown ->
  exists n e,
    attempts (detectClothingItems script imageUrl env) = S n
    /\ attempt_result script n = Throw e
    /\ includes (message thrown) (message e) = true.
Proof.
  intros Hcall Hout.
  rewrite DetectionFacts.detect_enters_loop in * by exact Hcall.
  destruct (DetectionFacts.retry_loop_shape script imageUrl maxRetries 0 None []
              ltac:(lia) ltac:(lia)) as (n & Hn & Bn & Fn & Hrun).
  change (maxRetries + 1)%nat with (S maxRetries) in *. rewrite Hrun in *.
  cbn [outcome attempts] in *. unfold settle in Hout.
  destruct (attempt_result script n) as [kept|e] eqn:Hres; [discriminate|].
  injection Hout as <-. exists n, e.
  split; [reflexivity|]. split; [exact Hres|]. apply surface_keeps_message.
Qed.

(** A call sends at most 4 requests, waits once between two requests and
    never after the last, and spends at most 7 seconds waiting. *)
Theorem detect_wait_bound (env : ProcessEnv) :
  let run := detectClothingItems script imageUrl env in
  (attempts run <= 4)%nat
  /\ List.length (sleeps run) = (attempts run - 1)%nat
  /\ 0 <= total_wait run <= 7000.
Proof.
  cbv zeta. unfold detectClothingItems.
  destruct (negb (truthy (GEMINI_API_KEY env))); [cbn; lia|].
  destruct (String.eqb imageUrl "" || trims_to_empty imageUrl); [cbn; lia|].
  destruct (DetectionFacts.retry_loop_shape script imageUrl maxRetries 0 None []
              ltac:(lia) ltac:(lia)) as (n & Hn & _ & _ & Hrun).
  change (maxRetries + 1)%nat with (S maxRetries). rewrite Hrun.
  unfold total_wait, maxRetries in *. cbn [attempts sleeps app].
  rewrite Nat.sub_0_r.
  destruct n as [|[|[|[|n]]]]; cbn; lia.
Qed.

Lemma is_space_spec (c : ascii) :
  is_space c = true <-> In (nat_of_ascii c) [9; 10; 11; 12; 13; 32; 160]%nat.
Proof.
  unfold is_space. cbn [In].
  rewrite !orb_true_iff, !andb_true_iff, !Nat.leb_le, !Nat.eqb_eq. lia.
Qed.

Lemma blank_spec (s : string) :
  trims_to_empty s = true
  <-> forall c, In c (list_ascii_of_string s) ->
                In (nat_of_ascii c) [9; 10; 11; 12; 13; 32; 160]%nat.
Proof.
  induction s as [|a s IH]; cbn [trims_to_empty list_ascii_of_string].
  - split; [intros _ c []|reflexivity].
  - rewrite andb_true_iff, IH, is_space_spec. split.
    + intros [Ha Hs] c [<-|Hc]; [exact Ha|now apply Hs].
    + intros Hall. split; [apply Hall; now left|].
      intros c Hc. apply Hall. now right.
Qed.

(** Without an API key, or with an image URL that is empty or consists of
    white space only (that of [trim]: the no-break space counts), the call
    throws before it sends anything; the key is checked first.  Any other
    call sends at least one request.  A string consists of white space
    only when each of its code units is one of 9 to 13, 32 and 160. *)
Theorem detect_rejects_before_request (env : ProcessEnv) :
  (truthy (GEMINI_API_KEY env) = false ->
   detectClothingItems script imageUrl env
   = mkRun (Throw (Error "GEMINI_API_KEY is not configured. Please set it in your .env.local file."))
           [] 0)
  /\ (truthy (GEMINI_API_KEY env) = true -> trims_to_empty imageUrl = true ->
      detectClothingItems script imageUrl env
      = mkRun (Throw (Error "Invalid image URL: imageUrl is required and must be a non-empty string"))
              [] 0)
  /\ (truthy (GEMINI_API_KEY env) = true -> trims_to_empty imageUrl = false ->
      (1 <= attempts (detectClothingItems script imageUrl env))%nat)
  /\ (forall s,
        trims_to_empty s = true
        <-> forall c, In c (list_ascii_of_string s) ->
                      In (nat_of_ascii c) [9; 10; 11; 12; 13; 32; 160]%nat).
Proof.
  unfold detectClothingItems. split; [|split; [|split]]; [| | |exact blank_spec].
  - intros ->. reflexivity.
  - intros -> ->. cbn [negb]. now rewrite orb_true_r.
  - intros Hkey Hurl.
    pose proof (DetectionFacts.detect_enters_loop script imageUrl env (conj Hkey Hurl)) as Hloop.
    unfold detectClothingItems in Hloop. rewrite Hloop.
    destruct (DetectionFacts.retry_loop_shape script imageUrl maxRetries 0 None []
                ltac:(lia) ltac:(lia)) as (n & _ & _ & _ & Hrun).
    change (maxRetries + 1)%nat with (S maxRetries). rewrite Hrun. cbn. lia.
Qed.

(** A response whose [items] is missing or not an array is not retried:
    the call ends at that request with the general detection failure
    around the complaint about the array. *)
Theorem detect_missing_items_not_retried (env : ProcessEnv) (n : nat) :
  accepted_call imageUrl env ->
  (n <= maxRetries)%nat ->
  (forall k, (k < n)%nat -> rate_limited_at script k) ->
  script n = Ok (mkDetectionResponse None) ->
  detectClothingItems script imageUrl env
  = mkRun (Throw (Error ("Failed to detect clothing items in image: "
                         ++ missing_items_message)))
          (firstn n [1000; 2000; 4000]) (S n).
Proof.
  intros Hcall Hn Hbefore Hresp.
  assert (Hres : attempt_result script n = Throw (Error missing_items_message)).
  { unfold attempt_result. now rewrite Hresp. }
  rewrite (DetectionFacts.detect_stops_at script imageUrl env n Hcall Hbefore);
    [|right; now rewrite Hres|exact Hn].
  unfold settle. rewrite Hres. f_equal.
  unfold maxRetries in Hn. destruct n as [|[|[|[|n]]]]; try reflexivity. lia.
Qed.

(** A failure whose message names the API key or authentication, and that
    is not classified as a rate limit, is not retried: the call ends at
    that request with the authentication failure, the original message
    attached. *)
Theorem detect_auth_failure_not_retried (env : ProcessEnv) (n : nat) (msg : string) :
  accepted_call imageUrl env ->
  (n <= maxRetries)%nat ->
  (forall k, (k < n)%nat -> rate_limited_at script k) ->
  script n = Throw (Error msg) ->
  mentions_auth msg = true ->
  isRateLimitError (Error msg) = false ->
  detectClothingItems script imageUrl env
  = mkRun (Throw (Error ("Gemini API authentication failed. Please check that GEMINI_API_KEY is set correctly in your .env.local file. Original error: "
                         ++ msg)))
          (firstn n [1000; 2000; 4000]) (S n).
Proof.
  intros Hcall Hn Hbefore Hresp Hauth Hrl.
  assert (Hres : attempt_result script n = Throw (Error msg)).
  { unfold attempt_result. now rewrite Hresp. }
  rewrite (DetectionFacts.detect_stops_at script imageUrl env n Hcall Hbefore);
    [|right; now rewrite Hres|exact Hn].
  unfold settle, surface. rewrite Hres, Hrl. cbn [isError message Error].
  rewrite Hauth. f_equal.
  unfold maxRetries in Hn. destruct n as [|[|[|[|n]]]]; try reflexivity. lia.
Qed.

End Calls.

Lemma detect_error_keeps_diagnostic_witness :
  exists n e,
    attempts (detectClothingItems (Fixtures.always (Throw Fixtures.quota_for_key))
                Fixtures.TEST_IMAGE_URL Fixtures.configured) = S n
    /\ attempt_result (Fixtures.always (Throw Fixtures.quota_for_key)) n = Throw e
    /\ includes
         "Gemini API authentication failed. Please check that GEMINI_API_KEY is set correctly in your .env.local file. Original error: quota exceeded for this API key"
         (message e) = true.
Proof.
  refine (detect_error_keeps_diagnostic (Fixtures.always (Throw Fixtures.quota_for_key))
            Fixtures.TEST_IMAGE_URL Fixtures.configured (Error _) _ _).
  - split; reflexivity.
  - reflexivity.
Defined.

Lemma detect_rejects_before_request_witness :
  detectClothingItems (Fixtures.always (Throw Fixtures.rate_limited))
    (String "160" (String "009" " ")) Fixtures.configured
  = mkRun (Throw (Error "Invalid image URL: imageUrl is required and must be a non-empty string"))
          [] 0.
Proof.
  exact (proj1 (proj2 (detect_rejects_before_request
                         (Fixtures.always (Throw Fixtures.rate_limited))
                         (String "160" (String "009" " "))
                         Fixtures.configured)) eq_refl eq_refl).
Defined.

Lemma detect_missing_items_not_retried_witness :
  detectClothingItems
    (fun k => if Nat.ltb k 1 then Throw Fixtures.rate_limited
              else Ok (mkDetectionResponse None))
    Fixtures.TEST_IMAGE_URL Fixtures.configured
  = mkRun (Throw (Error ("Failed to detect clothing items in image: "
                         ++ missing_items_message)))
          [1000] 2.
Proof.
  refine (detect_missing_items_not_retried _ Fixtures.TEST_IMAGE_URL Fixtures.configured 1
            _ _ _ _).
  - split; reflexivity.
  - unfold maxRetries. lia.
  - intros k Hk. exists Fixtures.rate_limited.
    destruct k as [|k]; [split; reflexivity|lia].
  - reflexivity.
Defined.

Lemma detect_auth_failure_not_retried_witness :
  detectClothingItems (Fixtures.always (Throw (Error "API key not valid")))
    Fixtures.TEST_IMAGE_URL Fixtures.configured
  = mkRun (Throw (Error "Gemini API authentication failed. Please check that GEMINI_API_KEY is set correctly in your .env.local file. Original error: API key not valid"))
          [] 1.
Proof.
  refine (detect_auth_failure_not_retried _ Fixtures.TEST_IMAGE_URL Fixtures.configured 0
            "API key not valid" _ _ _ _ _ _).
  - split; reflexivity.
  - unfold maxRetries. lia.
  - intros k Hk. lia.
  - reflexivity.
  - reflexivity.
  - reflexivity.
Defined.

End GatewayFacts.

(** ** More on the pipeline, in any environment *)

Module PipelineExtras.

Import PerceptualHash ProcessImage Outcomes.

Section AnyPlatform.
Context {W : Type} {P : Platform W}.

Lemma process_loop_app (userId : string) (xs ys : list ProcessItemInput.t) :
  forall w,
    process_loop userId (xs ++ ys) [] w
    = ((fst (process_loop userId xs [] w)
        ++ fst (process_loop userId ys [] (snd (process_loop userId xs [] w))))%list,
       snd (process_loop userId ys [] (snd (process_loop userId xs [] w)))).
Proof.
  induction xs as [|x xs IH]; intros w.
  - cbn [app process_loop fst snd]. now destruct (process_loop userId ys [] w).
  - change ((x :: xs) ++ ys)%list with (x :: (xs ++ ys))%list.
    rewrite !PipelineFacts.process_loop_cons, IH. reflexivity.
Qed.

(** A batch can be split anywhere: processing [xs ++ ys] gives the records
    of [xs] followed by those of [ys] processed in the world [xs] left. *)
Theorem processClothingItems_app (env : ProcessEnv) (userId : string)
    (xs ys : list ProcessItemInput.t) (w : W) :
  createServiceClient env = Ok tt ->
  exists r1 w1 r2 w2,
    processClothingItems env userId xs w = (Ok r1, w1)
    /\ processClothingItems env userId ys w1 = (Ok r2, w2)
    /\ processClothingItems env userId (xs ++ ys) w = (Ok (r1 ++ r2)%list, w2).
Proof.
  intros Hclient. unfold processClothingItems. rewrite Hclient.
  exists (fst (process_loop userId xs [] w)), (snd (process_loop userId xs [] w)).
  exists (fst (process_loop userId ys [] (snd (process_loop userId xs [] w)))),
         (snd (process_loop userId ys [] (snd (process_loop userId xs [] w)))).
  rewrite process_loop_app.
  destruct (process_loop userId xs [] w) as [r1 w1]. cbn [fst snd].
  destruct (process_loop userId ys [] w1) as [r2 w2]. auto.
Qed.

Lemma resolveItem_well_shaped (userId : string) (item : ProcessItemInput.t) (w : W) :
  well_shaped (outcome_record (fst (resolveItem userId item w))).
Proof.
  unfold resolveItem, bind, ret, throw.
  destruct (generatePerceptualHash _ _ w) as [[h|e] w0]; [|cbn; auto].
  destruct (select_by_hash userId h w0) as [[exact|e] w1]; [|cbn; auto].
  destruct (data exact) as [exactMatch|].
  - destruct (mergeItem _ _ _ w1) as [[[m|]|e] w2]; cbn; eauto.
  - destruct (select_with_embedding userId w1) as [[q|e] w2]; [|cbn; auto].
    destruct (analyzeClothingImage _ _ w2) as [[md|e] w3]; [|cbn; auto].
    destruct (insert_item _ w3) as [[inserted|e] w4]; [|cbn; auto].
    destruct (error inserted); [cbn; auto|].
    destruct (data inserted); cbn; auto.
Qed.

(** Every record of the result has one of two shapes: a merge, with the id
    of the item merged into and [imageAdded] set, or a record with neither
    (a new item, or the failure record). *)
Theorem processClothingItems_well_shaped (env : ProcessEnv) (userId : string)
    (items : list ProcessItemInput.t) (w w' : W) (results : list ProcessedItem.t) :
  processClothingItems env userId items w = (Ok results, w') ->
  Forall well_shaped results.
Proof.
  unfold processClothingItems. destruct (createServiceClient env); [|discriminate].
  destruct (process_loop userId items [] w) as [rs w1] eqn:Hloop.
  intros [= <- <-]. replace rs with (fst (process_loop userId items [] w))
    by now rewrite Hloop.
  clear Hloop. revert w. induction items as [|item rest IH]; intros w.
  - constructor.
  - rewrite PipelineFacts.process_loop_cons. cbn [fst].
    constructor; [apply resolveItem_well_shaped | apply IH].
Qed.

(** Without its two environment variables the pipeline throws the
    configuration error and resolves no candidate: the world is left as it
    was. *)
Theorem processClothingItems_unconfigured (env : ProcessEnv) (userId : string)
    (items : list ProcessItemInput.t) (w : W) :
  (truthy (NEXT_PUBLIC_SUPABASE_URL env) = false ->
   processClothingItems env userId items w
   = (Throw (Error "NEXT_PUBLIC_SUPABASE_URL is not configured. Please set it in your .env.local file."),
      w))
  /\ (truthy (NEXT_PUBLIC_SUPABASE_URL env) = true ->
      truthy (SUPABASE_SERVICE_ROLE_KEY env) = false ->
      processClothingItems env userId items w
      = (Throw (Error "SUPABASE_SERVICE_ROLE_KEY is not configured. Please set it in your .env.local file."),
         w)).
Proof.
  unfold processClothingItems, createServiceClient. split.
  - intros ->. reflexivity.
  - intros -> ->. reflexivity.
Qed.

(** When the row to merge into cannot be read back (the query reports an
    error, or no row), the merge throws "Existing item not found" at once:
    the image is not analysed and nothing is updated. *)
Theorem mergeItem_not_found (existingItemId newImageUrl userId : string)
    (w w1 : W) (fetched : QueryResult Row) :
  select_by_id existingItemId userId w = (Ok fetched, w1) ->
  error fetched <> None \/ data fetched = None ->
  mergeItem existingItemId newImageUrl userId w
  = (Throw (Error "Existing item not found"), w1).
Proof.
  intros Hsel Hbad. unfold mergeItem, bind, throw. rewrite Hsel.
  destruct (error fetched) as [err|], (data fetched) as [row|];
    try reflexivity.
  destruct Hbad as [H|H]; [contradiction|discriminate].
Qed.

(** A metadata analysis that fails writes nothing: on the merge path the
    update is not issued, on the create path the insert is not issued; the
    failure of the analysis is what is thrown. *)
Theorem analysis_failure_writes_nothing (userId : string) (item : ProcessItemInput.t)
    (e : JsError) :
  (forall existingItemId w w1 w2 existingItem,
      select_by_id existingItemId userId w
      = (Ok (mkQueryResult (Some existingItem) None), w1) ->
      analyzeClothingImage (ProcessItemInput.imageUrl item) None w1 = (Throw e, w2) ->
      mergeItem existingItemId (ProcessItemInput.imageUrl item) userId w = (Throw e, w2))
  /\ (forall w w1 w2 w3 w4 h exact similar,
        generatePerceptualHash (ProcessItemInput.imageUrl item)
          (ProcessItemInput.boundingBox item) w = (Ok h, w1) ->
        select_by_hash userId h w1 = (Ok exact, w2) ->
        data exact = None ->
        select_with_embedding userId w2 = (Ok similar, w3) ->
        analyzeClothingImage (ProcessItemInput.imageUrl item)
          (ProcessItemInput.description item) w3 = (Throw e, w4) ->
        resolveItem userId item w = (Throw e, w4)).
Proof.
  split.
  - intros existingItemId w w1 w2 existingItem Hsel Hana.
    unfold mergeItem, bind. rewrite Hsel. cbn [error data]. now rewrite Hana.
  - intros w w1 w2 w3 w4 h exact similar Hhash Hsel Hnone Hsim Hana.
    unfold resolveItem, bind. rewrite Hhash, Hsel, Hnone, Hsim. now rewrite Hana.
Qed.

End AnyPlatform.

Lemma processClothingItems_app_witness :
  exists r1 w1 r2 w2,
    processClothingItems (P := TableWorld.table_platform Fixtures.oracles)
      Fixtures.configured Fixtures.TEST_USER_ID
      [Fixtures.candidate Fixtures.TEST_IMAGE_URL] Fixtures.empty_table = (Ok r1, w1)
    /\ processClothingItems (P := TableWorld.table_platform Fixtures.oracles)
         Fixtures.configured Fixtures.TEST_USER_ID
         [Fixtures.candidate Fixtures.TEST_IMAGE_URL] w1 = (Ok r2, w2)
    /\ processClothingItems (P := TableWorld.table_platform Fixtures.oracles)
         Fixtures.configured Fixtures.TEST_USER_ID
         ([Fixtures.candidate Fixtures.TEST_IMAGE_URL]
          ++ [Fixtures.candidate Fixtures.TEST_IMAGE_URL])
         Fixtures.empty_table = (Ok (r1 ++ r2)%list, w2).
Proof.
  exact (processClothingItems_app (P := TableWorld.table_platform Fixtures.oracles)
           Fixtures.configured Fixtures.TEST_USER_ID
           [Fixtures.candidate Fixtures.TEST_IMAGE_URL]
           [Fixtures.candidate Fixtures.TEST_IMAGE_URL] Fixtures.empty_table eq_refl).
Defined.

Lemma processClothingItems_well_shaped_witness :
  Forall well_shaped
    [ProcessedItem.mk "item-1" false None None;
     ProcessedItem.mk "item-1" true (Some "item-1") (Some true)].
Proof.
  exact (processClothingItems_well_shaped (P := TableWorld.table_platform Fixtures.oracles)
           Fixtures.configured Fixtures.TEST_USER_ID
           [Fixtures.candidate Fixtures.TEST_IMAGE_URL;
            Fixtures.candidate Fixtures.TEST_IMAGE_URL]
           Fixtures.empty_table _ _ eq_refl).
Defined.

Lemma processClothingItems_unconfigured_witness :
  processClothingItems (P := TableWorld.table_platform Fixtures.oracles)
    (mkProcessEnv None (Some "https://test.supabase.co") (Some ""))
    Fixtures.TEST_USER_ID [Fixtures.candidate Fixtures.TEST_IMAGE_URL] Fixtures.empty_table
  = (Throw (Error "SUPABASE_SERVICE_ROLE_KEY is not configured. Please set it in your .env.local file."),
     Fixtures.empty_table).
Proof.
  exact (proj2 (processClothingItems_unconfigured
                  (P := TableWorld.table_platform Fixtures.oracles)
                  (mkProcessEnv None (Some "https://test.supabase.co") (Some ""))
                  Fixtures.TEST_USER_ID [Fixtures.candidate Fixtures.TEST_IMAGE_URL]
                  Fixtures.empty_table) eq_refl eq_refl).
Defined.

Lemma mergeItem_not_found_witness :
  mergeItem (P := TableWorld.table_platform Fixtures.oracles)
    "item-9" Fixtures.TEST_IMAGE_URL Fixtures.TEST_USER_ID Fixtures.empty_table
  = (Throw (Error "Existing item not found"), Fixtures.empty_table).
Proof.
  refine (mergeItem_not_found (P := TableWorld.table_platform Fixtures.oracles)
            "item-9" Fixtures.TEST_IMAGE_URL Fixtures.TEST_USER_ID
            Fixtures.empty_table Fixtures.empty_table _ eq_refl _).
  left. discriminate.
Defined.

End PipelineExtras.

(** ** More on the table of items *)

Module TableExtras.

Import PerceptualHash ProcessImage TableWorld Outcomes.

Section Table.

Variable o : Oracles.
Local Abbreviation TP := (table_platform o).

(** In this environment the signature of an image depends on the image
    only, and computing it leaves the table alone. *)
Lemma hash_pure (imageUrl : string) (boundingBox : option BoundingBox.t) (w w0 : Table) :
  generatePerceptualHash (P := TP) imageUrl boundingBox w
  = (fst (generatePerceptualHash (P := TP) imageUrl boundingBox w0), w).
Proof.
  unfold generatePerceptualHash, try_catch, bind, throw, ret. TableFacts.table_ops.
  destruct (o_fetch o imageUrl) as [response|e]; [|reflexivity].
  destruct (negb (Response.ok response)); [reflexivity|].
  destruct (o_metadata o _) as [metadata|e]; [|reflexivity].
  destruct (o_raw o _ _) as [processed|e]; reflexivity.
Qed.

Lemma single_cases (matching : list Row) :
  (exists r, matching = [r] /\ single matching = mkQueryResult (Some r) None)
  \/ (data (single matching) = None /\ error (single matching) <> None
      /\ forall r, matching <> [r]).
Proof.
  destruct matching as [|x [|y rest]]; cbn.
  - right. repeat split; discriminate.
  - left. now exists x.
  - right. repeat split; discriminate.
Qed.

(** What resolving one candidate does to the table: nothing; or it appends
    the new item under the next identifier; or it rewrites, by one update,
    the rows that carry the identifier of the one matching item. *)
Lemma resolveItem_table_cases (userId : string) (item : ProcessItemInput.t) (w : Table) :
  let url := ProcessItemInput.imageUrl item in
  let c := fst (resolveItem (P := TP) userId item w) in
  let w' := snd (resolveItem (P := TP) userId item w) in
  (rows w' = rows w /\ next_id w' = next_id w /\ exists e, c = Throw e)
  \/ (exists h md,
        fst (generatePerceptualHash (P := TP) url (ProcessItemInput.boundingBox item) w) = Ok h
        /\ data (single (filter (has_hash userId h) (rows w))) = None
        /\ c = Ok (ProcessedItem.mk (fresh_id (next_id w)) false None None)
        /\ rows w' = (rows w ++ [mkRow (fresh_id (next_id w)) userId
                                  (Some (mkImageUrls url (Some []))) (Some h)
                                  (Some md) None])%list
        /\ next_id w' = S (next_id w))
  \/ (exists h exactMatch existingItem md stamp,
        fst (generatePerceptualHash (P := TP) url (ProcessItemInput.boundingBox item) w) = Ok h
        /\ filter (has_hash userId h) (rows w) = [exactMatch]
        /\ filter (has_id_user (id exactMatch) userId) (rows w) = [existingItem]
        /\ o_analyze o url None = Ok md
        /\ rows w'
           = map (apply_patch (id exactMatch)
                    (mkPatch (merged_image_urls (image_urls existingItem) url)
                             (mergeMetadata (metadata_or_empty (ai_metadata existingItem)) md)
                             stamp))
                 (rows w)
        /\ next_id w' = next_id w
        /\ ((exists m, filter (has_id (id exactMatch)) (rows w') = [m]
                       /\ c = Ok (ProcessedItem.mk (id m) true (Some (id exactMatch))
                                    (Some true)))
            \/ exists e, c = Throw e)).
Proof.
  cbv zeta. unfold resolveItem, bind.
  rewrite (hash_pure _ _ w w).
  destruct (fst (generatePerceptualHash _ _ w)) as [h|e] eqn:Hhash;
    [|left; cbn; eauto].
  TableFacts.table_ops.
  destruct (single_cases (filter (has_hash userId h) (rows w)))
    as [(exactMatch & Hmatch & Hsingle)|(Hnone & _ & _)].
  - rewrite Hsingle. cbn [data].
    unfold mergeItem, bind, throw, ret. TableFacts.table_ops.
    destruct (single_cases (filter (has_id_user (id exactMatch) userId) (rows w)))
      as [(existingItem & Hexisting & Hsingle')|(Hnone' & Herr' & _)].
    + rewrite Hsingle'. cbn [error data].
      destruct (o_analyze o (ProcessItemInput.imageUrl item) None) as [md|e] eqn:Hana;
        [|left; cbn; eauto].
      right. right.
      exists h, exactMatch, existingItem, md, ("T" ++ Detection.decimal (clock w))%string.
      cbn [rows next_id].
      match goal with
      | |- context [single ?l] => destruct (single_cases l) as [(m & Hm & Hs)|(Hd & He & _)]
      end.
      * rewrite Hs. cbn [error data fst snd rows next_id].
        repeat split; auto. left. exists m. split; [exact Hm|reflexivity].
      * match goal with
        | |- context [error (single ?l)] => destruct (error (single l)) eqn:Herr
        end; [|contradiction].
        cbn [error data fst snd rows next_id]. repeat split; eauto.
    + left. destruct (error (single _)) eqn:Herr; [|contradiction].
      cbn. eauto.
  - rewrite Hnone.
    destruct (o_analyze o _ _) as [md|e]; [|left; cbn; eauto].
    right. left. exists h, md. cbn. auto.
Qed.

Lemma apply_patch_key (i : string) (p : Patch) (r : Row) :
  row_key (apply_patch i p r) = row_key r.
Proof. unfold apply_patch. now destruct (has_id i r). Qed.

Lemma apply_patch_id (i : string) (p : Patch) (l : list Row) :
  map id (map (apply_patch i p) l) = map id l.
Proof.
  rewrite map_map. apply map_ext. intros r. unfold apply_patch.
  now destruct (has_id i r).
Qed.

Lemma decimal_inj (n m : nat) : Detection.decimal n = Detection.decimal m -> n = m.
Proof.
  unfold Detection.decimal. intros H.
  apply DecimalNat.Unsigned.to_uint_inj.
  assert (Hs : Some (Nat.to_uint n) = Some (Nat.to_uint m)).
  { rewrite <- !DecimalString.NilEmpty.usu. now rewrite H. }
  now injection Hs.
Qed.

Lemma fresh_id_inj (n m : nat) : fresh_id n = fresh_id m -> n = m.
Proof. unfold fresh_id. cbn. intros [= H]. now apply decimal_inj. Qed.

(** A property of the table that every resolution keeps is kept by the
    loop. *)
Lemma process_loop_keeps (I : Table -> Prop) (userId : string) :
  (forall item w, I w -> I (snd (resolveItem (P := TP) userId item w))) ->
  forall items results w, I w -> I (snd (process_loop (P := TP) userId items results w)).
Proof.
  intros Hstep its. induction its as [|item rest IH]; intros results w Hw;
    cbn [process_loop]; [exact Hw|].
  specialize (Hstep item w Hw).
  destruct (resolveItem userId item w) as [[r|e] w1]; apply IH, Hstep.
Qed.

Lemma resolveItem_well_keyed (userId : string) (item : ProcessItemInput.t) (w : Table) :
  well_keyed w -> well_keyed (snd (resolveItem (P := TP) userId item w)).
Proof.
  intros [Hnd Hfresh]. unfold well_keyed.
  destruct (resolveItem_table_cases userId item w)
    as [(Hrows & Hnext & _)
       |[(h & md & _ & _ & _ & Hrows & Hnext)
        |(h & x & y & md & stamp & _ & _ & _ & _ & Hrows & Hnext & _)]];
    rewrite Hrows, Hnext.
  - auto.
  - rewrite map_app. cbn [map id]. split.
    + apply NoDup_app; [exact Hnd| |].
      * constructor; [intros []|constructor].
      * intros x Hx [<-|[]]. now apply (Hfresh (next_id w)).
    + intros k Hk Hin. apply in_app_or in Hin as [Hin|[Heq|[]]].
      * apply (Hfresh k); [lia|exact Hin].
      * apply fresh_id_inj in Heq. lia.
  - rewrite apply_patch_id. auto.
Qed.

(** No item is ever removed or re-keyed: after a batch, the items that were
    stored are still there, in their order, each with the identifier, the
    owner and the signature it had; new items come after them. *)
Theorem table_rows_persist (env : ProcessEnv) (userId : string)
    (items : list ProcessItemInput.t) (w : Table) :
  exists added,
    map row_key (rows (snd (processClothingItems (P := TP) env userId items w)))
    = (map row_key (rows w) ++ added)%list.
Proof.
  unfold processClothingItems. destruct (createServiceClient env);
    [|exists []; now rewrite app_nil_r].
  assert (Hloop : exists added,
             map row_key (rows (snd (process_loop (P := TP) userId items [] w)))
             = (map row_key (rows w) ++ added)%list).
  { generalize (@nil ProcessedItem.t) as results.
    induction items as [|item rest IH] in w |- *; intros results; cbn [process_loop].
    - exists []. now rewrite app_nil_r.
    - assert (Hstep : exists added,
                 map row_key (rows (snd (resolveItem (P := TP) userId item w)))
                 = (map row_key (rows w) ++ added)%list).
      { destruct (resolveItem_table_cases userId item w)
          as [(Hrows & _)
             |[(h & md & _ & _ & _ & Hrows & _)
              |(h & x & y & md & stamp & _ & _ & _ & _ & Hrows & _)]];
          rewrite Hrows.
        - exists []. now rewrite app_nil_r.
        - rewrite map_app. now eexists.
        - exists []. rewrite app_nil_r, map_map. apply map_ext, apply_patch_key. }
      destruct Hstep as (a1 & H1).
      destruct (resolveItem userId item w) as [[r|e] w1]; cbn [snd] in H1;
        [destruct (IH w1 (results ++ [r])%list) as (a2 & H2)
        |destruct (IH w1 (results ++ [failure])%list) as (a2 & H2)];
        exists (a1 ++ a2)%list; now rewrite H2, H1, app_assoc. }
  destruct Hloop as (added & Hadded). exists added.
  now destruct (process_loop userId items [] w).
Qed.

Lemma resolveItem_row_count (userId : string) (item : ProcessItemInput.t) (w : Table) :
  List.length (rows (snd (resolveItem (P := TP) userId item w)))
  = (List.length (rows w)
     + if created (outcome_record (fst (resolveItem (P := TP) userId item w)))
       then 1 else 0)%nat.
Proof.
  destruct (resolveItem_table_cases userId item w)
    as [(Hrows & _ & e & Hc)
       |[(h & md & _ & _ & Hc & Hrows & _)
        |(h & x & y & md & stamp & _ & _ & _ & _ & Hrows & _ & [(m & _ & Hc)|(e & Hc)])]];
    rewrite Hrows, Hc; cbn [outcome_record created ProcessedItem.merged
                              ProcessedItem.id failure negb andb];
    rewrite ?length_app, ?length_map; cbn; lia.
Qed.

(** The table grows by exactly the items the result reports as new: the
    number of rows added by a batch is the number of its records that are
    neither merges nor failures. *)
Theorem table_growth_is_reported (env : ProcessEnv) (userId : string)
    (items : list ProcessItemInput.t) (w w' : Table) (results : list ProcessedItem.t) :
  processClothingItems (P := TP) env userId items w = (Ok results, w') ->
  List.length (rows w')
  = (List.length (rows w) + List.length (filter created results))%nat.
Proof.
  unfold processClothingItems. destruct (createServiceClient env); [|discriminate].
  destruct (process_loop userId items [] w) as [rs w1] eqn:Hloop.
  intros [= <- <-].
  replace rs with (fst (process_loop (P := TP) userId items [] w)) by now rewrite Hloop.
  replace w1 with (snd (process_loop (P := TP) userId items [] w)) by now rewrite Hloop.
  clear Hloop. revert w. induction items as [|item rest IH]; intros w.
  - cbn. lia.
  - rewrite PipelineFacts.process_loop_cons. cbn [fst snd filter].
    rewrite IH, resolveItem_row_count.
    destruct (created (outcome_record (fst (resolveItem userId item w)))); cbn; lia.
Qed.

Lemma resolveItem_other_owner (userId : string) (item : ProcessItemInput.t)
    (w : Table) (r : Row) :
  well_keyed w -> In r (rows w) -> user_id r <> userId ->
  In r (rows (snd (resolveItem (P := TP) userId item w))).
Proof.
  intros [Hnd _] Hin Howner.
  destruct (resolveItem_table_cases userId item w)
    as [(Hrows & _)
       |[(h & md & _ & _ & _ & Hrows & _)
        |(h & x & y & md & stamp & _ & _ & Hy & _ & Hrows & _)]];
    rewrite Hrows.
  - exact Hin.
  - apply in_or_app. now left.
  - apply in_map_iff. exists r. split; [|exact Hin].
    unfold apply_patch, has_id.
    destruct (String.eqb_spec (id r) (id x)) as [Hid|_]; [|reflexivity].
    exfalso. apply Howner.
    assert (Hfound : In y (filter (has_id_user (id x) userId) (rows w)))
      by (rewrite Hy; now left).
    apply filter_In in Hfound as [Hyin Hymatch].
    apply andb_prop in Hymatch as [Hyid Hyuser].
    apply String.eqb_eq in Hyid, Hyuser.
    assert (r = y) as ->
      by (apply (TableFacts.unique_id_row (rows w)); [exact Hnd|exact Hin|exact Hyin|congruence]).
    exact Hyuser.
Qed.

(** Processing a batch for one user leaves the items of every other user
    exactly as they were. *)
Theorem other_owners_untouched (env : ProcessEnv) (userId : string)
    (items : list ProcessItemInput.t) (w : Table) (r : Row) :
  well_keyed w -> In r (rows w) -> user_id r <> userId ->
  In r (rows (snd (processClothingItems (P := TP) env userId items w))).
Proof.
  intros Hkeys Hin Howner. unfold processClothingItems.
  destruct (createServiceClient env); [|exact Hin].
  assert (Hloop : well_keyed (snd (process_loop (P := TP) userId items [] w))
                  /\ In r (rows (snd (process_loop (P := TP) userId items [] w)))).
  { apply (process_loop_keeps (fun t => well_keyed t /\ In r (rows t))); [|auto].
    intros item t [Hk Hr]. split.
    - now apply resolveItem_well_keyed.
    - now apply resolveItem_other_owner. }
  destruct (process_loop userId items [] w). apply Hloop.
Qed.

Lemma filter_none (f : Row -> bool) (l : list Row) :
  (forall r, In r l -> f r = false) -> filter f l = [].
Proof.
  induction l as [|x l IH]; intros H; cbn; [reflexivity|].
  rewrite (H x) by now left. apply IH. intros r Hr. apply H. now right.
Qed.

Lemma apply_patch_others (i : string) (p : Patch) (l : list Row) :
  (forall r, In r l -> has_id i r = false) -> map (apply_patch i p) l = l.
Proof.
  induction l as [|x l IH]; intros H; cbn; [reflexivity|].
  unfold apply_patch at 1. rewrite (H x) by now left.
  f_equal. apply IH. intros r Hr. apply H. now right.
Qed.

Lemma unused_id (i : string) (l : list Row) :
  ~ In i (map id l) -> forall r, In r l -> has_id i r = false.
Proof.
  intros Hnot r Hr. unfold has_id. apply String.eqb_neq. intros Heq.
  apply Hnot. rewrite <- Heq. now apply in_map.
Qed.

(** Ingesting the same image a second time merges it into the item the
    first ingestion created, under two conditions: before the first
    ingestion no stored item of the user carried the signature of the
    image (with two such items [single()] finds no match and a new item is
    filed), and the analysis of the image without a description, which the
    merge asks for, succeeds.  Then the second record is a merge into that
    item, no row is added, and the item has the image as primary reference
    and once among its variants. *)
Theorem reingest_merges (userId : string) (item : ProcessItemInput.t)
    (w w1 : Table) (r1 : ProcessedItem.t) (md : ClothingMetadata) :
  let url := ProcessItemInput.imageUrl item in
  well_keyed w ->
  resolveItem (P := TP) userId item w = (Ok r1, w1) ->
  ProcessedItem.merged r1 = false ->
  (forall h,
      fst (generatePerceptualHash (P := TP) url (ProcessItemInput.boundingBox item) w) = Ok h ->
      forall r, In r (rows w) -> has_hash userId h r = false) ->
  o_analyze o url None = Ok md ->
  exists w2 r,
    resolveItem (P := TP) userId item w1
    = (Ok (ProcessedItem.mk (ProcessedItem.id r1) true (Some (ProcessedItem.id r1))
             (Some true)), w2)
    /\ List.length (rows w2) = List.length (rows w1)
    /\ In r (rows w2)
    /\ id r = ProcessedItem.id r1
    /\ image_urls r = Some (mkImageUrls url (Some [url])).
Proof.
  intros url [Hnd Hfresh] Hfirst Hnew Hnohash Hana. subst url.
  pose proof (resolveItem_table_cases userId item w) as Hcases. cbv zeta in Hcases.
  rewrite Hfirst in Hcases. cbn [fst snd] in Hcases.
  destruct Hcases
    as [(_ & _ & e & Hc)
       |[(h & md0 & Hhash & _ & Hc & Hrows & _)
        |(h & x & y & md1 & stamp & _ & _ & _ & _ & _ & _ & [(m & _ & Hc)|(e & Hc)])]];
    try discriminate;
    try (injection Hc as ->; discriminate).
  injection Hc as ->. cbn [ProcessedItem.id].
  set (i := fresh_id (next_id w)) in *.
  set (nr := mkRow i userId (Some (mkImageUrls (ProcessItemInput.imageUrl item) (Some []))) (Some h) (Some md0) None)
    in *.
  assert (Hno_id : forall r, In r (rows w) -> has_id i r = false)
    by (apply unused_id, Hfresh; lia).
  assert (Hno_id_user : forall r, In r (rows w) -> has_id_user i userId r = false).
  { intros r Hr. unfold has_id_user. fold (has_id i r). now rewrite (Hno_id r Hr). }
  assert (Hmatch : filter (has_hash userId h) (rows w1) = [nr]).
  { rewrite Hrows, filter_app, (filter_none _ _ (Hnohash h Hhash)). cbn.
    unfold has_hash. cbn. now rewrite !String.eqb_refl. }
  assert (Hbyid : filter (has_id_user i userId) (rows w1) = [nr]).
  { rewrite Hrows, filter_app, (filter_none _ _ Hno_id_user). cbn.
    unfold has_id_user. cbn. now rewrite !String.eqb_refl. }
  set (p := mkPatch (merged_image_urls (image_urls nr) (ProcessItemInput.imageUrl item))
                    (mergeMetadata (metadata_or_empty (ai_metadata nr)) md)
                    ("T" ++ Detection.decimal (clock w1))%string).
  assert (Hupdated : map (apply_patch i p) (rows w1)
                     = (rows w ++ [apply_patch i p nr])%list).
  { rewrite Hrows, map_app, (apply_patch_others _ _ _ Hno_id). reflexivity. }
  assert (Hnr : apply_patch i p nr
                = mkRow i userId (Some (mkImageUrls (ProcessItemInput.imageUrl item) (Some [ProcessItemInput.imageUrl item]))) (Some h)
                        (Some (patch_ai_metadata p)) (Some (patch_updated_at p))).
  { unfold apply_patch, has_id. cbn [id nr]. now rewrite String.eqb_refl. }
  assert (Hone : filter (has_id i) (map (apply_patch i p) (rows w1))
                 = [apply_patch i p nr]).
  { rewrite Hupdated, filter_app, (filter_none _ _ Hno_id). cbn [filter app].
    rewrite Hnr. unfold has_id. cbn [id]. now rewrite String.eqb_refl. }
  exists (mkTable (map (apply_patch i p) (rows w1)) (next_id w1) (S (clock w1))),
         (apply_patch i p nr).
  split; [|split; [|split; [|split]]].
  - unfold resolveItem, bind. rewrite (hash_pure _ _ w1 w).
    rewrite Hhash. TableFacts.table_ops.
    rewrite Hmatch. cbn [single data].
    unfold mergeItem, bind, throw, ret. TableFacts.table_ops.
    cbn [id nr]. fold i. rewrite Hbyid. cbn [single error data].
    rewrite Hana. fold nr. fold p.
    cbn [rows]. rewrite Hone. cbn [single error data].
    rewrite Hnr. reflexivity.
  - cbn [rows]. now rewrite length_map.
  - cbn [rows]. rewrite Hupdated. apply in_or_app. right. now left.
  - now rewrite Hnr.
  - now rewrite Hnr.
Qed.

End Table.

Lemma table_growth_is_reported_witness :
  List.length
    (rows (snd (processClothingItems (P := table_platform Fixtures.oracles)
                  Fixtures.configured Fixtures.TEST_USER_ID
                  [Fixtures.candidate Fixtures.TEST_IMAGE_URL;
                   Fixtures.candidate "https://example.com/missing.jpg";
                   Fixtures.candidate Fixtures.TEST_IMAGE_URL]
                  Fixtures.empty_table)))
  = (0 + 1)%nat.
Proof.
  exact (table_growth_is_reported Fixtures.oracles Fixtures.configured Fixtures.TEST_USER_ID
           [Fixtures.candidate Fixtures.TEST_IMAGE_URL;
            Fixtures.candidate "https://example.com/missing.jpg";
            Fixtures.candidate Fixtures.TEST_IMAGE_URL]
           Fixtures.empty_table _ _ eq_refl).
Defined.

Lemma other_owners_untouched_witness :
  In (mkRow "item-0" "another-user" None None None None)
     (rows (snd (processClothingItems (P := table_platform Fixtures.oracles)
                   Fixtures.configured Fixtures.TEST_USER_ID
                   [Fixtures.candidate Fixtures.TEST_IMAGE_URL]
                   (mkTable [mkRow "item-0" "another-user" None None None None] 1 0)))).
Proof.
  apply (other_owners_untouched Fixtures.oracles).
  - split.
    + constructor; [intros []|constructor].
    + intros k Hk [Heq|[]]. apply (fresh_id_inj 0 k) in Heq. cbn in Hk. lia.
  - now left.
  - discriminate.
Defined.

Lemma reingest_merges_witness :
  exists w2 r,
    resolveItem (P := table_platform Fixtures.oracles) Fixtures.TEST_USER_ID
      (Fixtures.candidate Fixtures.TEST_IMAGE_URL)
      (snd (resolveItem (P := table_platform Fixtures.oracles) Fixtures.TEST_USER_ID
              (Fixtures.candidate Fixtures.TEST_IMAGE_URL) Fixtures.empty_table))
    = (Ok (ProcessedItem.mk "item-1" true (Some "item-1") (Some true)), w2)
    /\ List.length (rows w2) = 1%nat
    /\ In r (rows w2)
    /\ id r = "item-1"
    /\ image_urls r
       = Some (mkImageUrls Fixtures.TEST_IMAGE_URL (Some [Fixtures.TEST_IMAGE_URL])).
Proof.
  refine (reingest_merges Fixtures.oracles Fixtures.TEST_USER_ID
            (Fixtures.candidate Fixtures.TEST_IMAGE_URL) Fixtures.empty_table _
            (ProcessedItem.mk "item-1" false None None) Fixtures.mockMetadata
            _ eq_refl eq_refl _ eq_refl).
  - split; [constructor|intros k Hk []].
  - intros h Hh r [].
Defined.

End TableExtras.

(** ** More on merging *)

Module MergeExtras.

Import ProcessImage Dedup.

Lemma keep_new_ext (xs : list string) :
  forall s1 s2, (forall x, In x s1 <-> In x s2) -> keep_new s1 xs = keep_new s2 xs.
Proof.
  induction xs as [|x rest IH]; intros s1 s2 Hsame; cbn [keep_new]; [reflexivity|].
  assert (Hmem : existsb (String.eqb x) s1 = existsb (String.eqb x) s2).
  { apply eq_true_iff_eq. rewrite !MergeFacts.existsb_eqb_In. apply Hsame. }
  rewrite Hmem. destruct (existsb (String.eqb x) s2).
  - now apply IH.
  - f_equal. apply IH. intros y. rewrite !in_app_iff. now rewrite Hsame.
Qed.

Lemma fold_Set_add_keep_new (xs : list string) :
  forall acc, fold_left Set_add xs acc = (acc ++ keep_new acc xs)%list.
Proof.
  induction xs as [|x rest IH]; intros acc; cbn [fold_left keep_new].
  - now rewrite app_nil_r.
  - unfold Set_add at 2. destruct (existsb (String.eqb x) acc).
    + apply IH.
    + rewrite IH, <- app_assoc. reflexivity.
Qed.

Lemma filter_first_from_keep_new (rest : list string) :
  forall pre,
    filter_first_from (pre ++ rest) rest (Z.of_nat (List.length pre))
    = keep_new pre rest.
Proof.
  induction rest as [|v rest IH]; intros pre; cbn [filter_first_from keep_new];
    [reflexivity|].
  unfold indexOf.
  pose proof (MergeFacts.indexOf_from_at pre rest v 0) as Hat. cbn [Z.add] in Hat.
  rewrite Hat.
  assert (Hnext : Z.of_nat (List.length pre) + 1 = Z.of_nat (List.length (pre ++ [v])))
    by (rewrite length_app; cbn; lia).
  assert (Happ : (pre ++ v :: rest = (pre ++ [v]) ++ rest)%list)
    by now rewrite <- app_assoc.
  rewrite Hnext, Happ, IH.
  destruct (existsb (String.eqb v) pre) eqn:Hmem; cbn [negb]; [|reflexivity].
  apply keep_new_ext. intros x. rewrite in_app_iff. cbn.
  apply MergeFacts.existsb_eqb_In in Hmem. intuition (subst; auto).
Qed.

Lemma array_from_set_keep_new (xs : list string) : array_from_set xs = keep_new [] xs.
Proof. unfold array_from_set. now rewrite fold_Set_add_keep_new. Qed.

Lemma filter_first_keep_new (xs : list string) : filter_first xs = keep_new [] xs.
Proof. exact (filter_first_from_keep_new xs []). Qed.

Lemma keep_new_seen (xs seen : list string) :
  (forall x, In x xs -> In x seen) -> keep_new seen xs = [].
Proof.
  induction xs as [|x rest IH]; intros Hsub; cbn [keep_new]; [reflexivity|].
  rewrite (proj2 (MergeFacts.existsb_eqb_In x seen)) by (apply Hsub; now left).
  apply IH. intros y Hy. apply Hsub. now right.
Qed.

Lemma keep_new_fresh (xs : list string) :
  forall seen, NoDup xs -> (forall x, In x xs -> ~ In x seen) -> keep_new seen xs = xs.
Proof.
  induction xs as [|x rest IH]; intros seen Hnd Hfresh; cbn [keep_new]; [reflexivity|].
  inversion Hnd as [|y l Hnot Hnd']; subst.
  destruct (existsb (String.eqb x) seen) eqn:Hmem.
  - apply MergeFacts.existsb_eqb_In in Hmem. exfalso. apply (Hfresh x); [now left|exact Hmem].
  - f_equal. apply IH; [exact Hnd'|].
    intros y Hy Hin. apply in_app_or in Hin as [Hin|[<-|[]]].
    + apply (Hfresh y); [now right|exact Hin].
    + contradiction.
Qed.

Lemma keep_new_app (a : list string) :
  forall seen b,
    keep_new seen (a ++ b) = (keep_new seen a ++ keep_new (seen ++ a) b)%list.
Proof.
  induction a as [|x a IH]; intros seen b; cbn [app keep_new].
  - now rewrite app_nil_r.
  - destruct (existsb (String.eqb x) seen) eqn:Hmem.
    + rewrite IH. f_equal. apply keep_new_ext. intros y.
      apply MergeFacts.existsb_eqb_In in Hmem.
      rewrite !in_app_iff. cbn. intuition (subst; auto).
    + cbn [app]. rewrite IH, <- app_assoc. reflexivity.
Qed.

(** Merging again what is already merged adds nothing. *)
Lemma keep_new_absorbs (l extra : list string) :
  NoDup l -> (forall x, In x extra -> In x l) -> keep_new [] (l ++ extra) = l.
Proof.
  intros Hnd Hsub.
  rewrite keep_new_app, (keep_new_fresh l [] Hnd) by (intros x _ []).
  cbn [app]. rewrite (keep_new_seen extra l Hsub). apply app_nil_r.
Qed.

(** The two ways in which [mergeItem] removes duplicates, through a [Set]
    for the vibe tags and through [indexOf] for the secondary colors,
    compute the same list: the values of the input, each once, at the
    position of its first occurrence.  The result has the members of the
    input and no duplicate; a value appended to the input is appended to
    the result when it is new and changes nothing when it occurred before;
    a list without duplicates is left as it is. *)
Theorem deduplications_agree (xs : list string) :
  array_from_set xs = filter_first xs
  /\ NoDup (filter_first xs)
  /\ (forall x, In x (filter_first xs) <-> In x xs)
  /\ filter_first [] = []
  /\ (forall x,
        filter_first (xs ++ [x])
        = if existsb (String.eqb x) xs then filter_first xs
          else (filter_first xs ++ [x])%list)
  /\ (NoDup xs -> filter_first xs = xs).
Proof.
  split; [now rewrite array_from_set_keep_new, filter_first_keep_new|].
  split; [apply MergeFacts.filter_first_NoDup|].
  split; [intros x; apply MergeFacts.filter_first_In|].
  split; [reflexivity|].
  split.
  - intros x. rewrite !filter_first_keep_new, keep_new_app. cbn [app keep_new].
    destruct (existsb (String.eqb x) xs); [apply app_nil_r|reflexivity].
  - intros Hnd. rewrite filter_first_keep_new.
    apply keep_new_fresh; [exact Hnd|intros x _ []].
Qed.

Lemma or_else_idempotent (new existing : option string) :
  or_else new (or_else new existing) = or_else new existing.
Proof. unfold or_else. now destruct (truthy new). Qed.

(** Merging the same analysis a second time changes nothing in the
    metadata: the merge of metadata is idempotent (unlike the variants,
    which grow with every merge). *)
Theorem mergeMetadata_idempotent (existingMetadata newMetadata : ClothingMetadata) :
  mergeMetadata (mergeMetadata existingMetadata newMetadata) newMetadata
  = mergeMetadata existingMetadata newMetadata.
Proof.
  unfold mergeMetadata.
  cbn [category sub_category primary_color secondary_colors vibe_tags estimated_season
       or_nil].
  rewrite !or_else_idempotent. f_equal.
  - f_equal. rewrite !filter_first_keep_new.
    apply keep_new_absorbs.
    + rewrite <- filter_first_keep_new. apply MergeFacts.filter_first_NoDup.
    + intros x Hx. rewrite <- filter_first_keep_new.
      apply MergeFacts.filter_first_In, in_or_app. now right.
  - f_equal. rewrite !array_from_set_keep_new.
    apply keep_new_absorbs.
    + rewrite <- array_from_set_keep_new. apply MergeFacts.array_from_set_NoDup.
    + intros x Hx. rewrite <- array_from_set_keep_new.
      apply MergeFacts.array_from_set_In, in_or_app. now right.
  - unfold spread. now destruct (estimated_season newMetadata).
Qed.


Lemma analysis_failure_writes_nothing_witness :
  resolveItem (P := TableWorld.table_platform oracles_without_analysis)
    Fixtures.TEST_USER_ID (Fixtures.candidate Fixtures.TEST_IMAGE_URL) Fixtures.empty_table
  = (Throw (Error "Failed to analyze clothing image: service unavailable"),
     Fixtures.empty_table).
Proof.
  exact (proj2 (PipelineExtras.analysis_failure_writes_nothing
                  (P := TableWorld.table_platform oracles_without_analysis)
                  Fixtures.TEST_USER_ID (Fixtures.candidate Fixtures.TEST_IMAGE_URL)
                  (Error "Failed to analyze clothing image: service unavailable"))
           Fixtures.empty_table Fixtures.empty_table Fixtures.empty_table
           Fixtures.empty_table Fixtures.empty_table "01100110"
           (mkQueryResult None (Some (Some "JSON object requested, multiple (or no) rows returned")))
           (mkQueryResult (Some []) None)
           eq_refl eq_refl eq_refl eq_refl eq_refl).
Defined.

End MergeExtras.

(** ** More on fingerprinting, in any environment *)

Module HashExtras.

Import PerceptualHash Signature.

Section AnyPlatform.
Context {W : Type} {P : Platform W}.

(** A signature that [generatePerceptualHash] returns is the signature of
    the pixels the image library delivered for the image that was fetched,
    cut to the rectangle of the bounding box: the image was downloaded
    with an ok response, its metadata was read, the pixel pipeline ran on
    the downloaded bytes with the crop rectangle computed from the
    (defaulted) dimensions, and the result is the signature of exactly the
    pixels it returned, a string of 0s and 1s with one character per
    pixel, in the world the pipeline left. *)
Theorem generatePerceptualHash_signature (imageUrl : string)
    (boundingBox : option BoundingBox.t) (w w' : W) (hash : string) :
  generatePerceptualHash imageUrl boundingBox w = (Ok hash, w') ->
  exists response w1 metadata w2 processed,
    fetch imageUrl w = (Ok response, w1)
    /\ Response.ok response = true
    /\ sharp_metadata (Response.arrayBuffer response) w1 = (Ok metadata, w2)
    /\ sharp_raw (Response.arrayBuffer response)
         (option_map (cropRegion (dimension_or_1 (ImageMeta.width metadata))
                                 (dimension_or_1 (ImageMeta.height metadata)))
                     boundingBox) w2
       = (Ok processed, w')
    /\ hash = hash_of_pixels processed
    /\ String.length hash = List.length processed
    /\ is_binary hash.
Proof.
  unfold generatePerceptualHash, try_catch, bind, throw, ret.
  destruct (fetch imageUrl w) as [[response|e] w1]; [|discriminate].
  destruct (Response.ok response) eqn:Hok; [|discriminate]. cbn [negb].
  destruct (sharp_metadata _ w1) as [[metadata|e] w2] eqn:Hmeta; [|discriminate].
  replace (match boundingBox with
           | Some bb =>
               Some (cropRegion (dimension_or_1 (ImageMeta.width metadata))
                                (dimension_or_1 (ImageMeta.height metadata)) bb)
           | None => None
           end)
    with (option_map (cropRegion (dimension_or_1 (ImageMeta.width metadata))
                                 (dimension_or_1 (ImageMeta.height metadata)))
                     boundingBox)
    by (destruct boundingBox; reflexivity).
  destruct (sharp_raw _ _ w2) as [[processed|e] w3] eqn:Hraw; [|discriminate].
  intros [= <- <-]. exists response, w1, metadata, w2, processed.
  repeat (split; [first [reflexivity | assumption]|]).
  rewrite SignatureFacts.hash_of_pixels_bits.
  split; [apply SignatureFacts.bits_length|apply SignatureFacts.bits_binary].
Qed.

(** When the image cannot be downloaded (the request throws, or the
    response is not ok) the status text is dropped: the caller sees the
    general fingerprint failure, and the image library is not called. *)
Theorem generatePerceptualHash_download_failure (imageUrl : string)
    (boundingBox : option BoundingBox.t) (w w1 : W) (c : Completion Response.t) :
  fetch imageUrl w = (c, w1) ->
  match c with
  | Ok response => Response.ok response = false
  | Throw _ => True
  end ->
  generatePerceptualHash imageUrl boundingBox w
  = (Throw (Error "Failed to generate perceptual hash"), w1).
Proof.
  intros Hfetch Hbad. unfold generatePerceptualHash, try_catch, bind, throw.
  rewrite Hfetch. destruct c as [response|e]; [|reflexivity].
  now rewrite Hbad.
Qed.

End AnyPlatform.

Lemma generatePerceptualHash_signature_witness :
  generatePerceptualHash (P := TableWorld.table_platform Fixtures.oracles)
    Fixtures.TEST_IMAGE_URL (Some (BoundingBox.mk 10 20 30 40)) Fixtures.empty_table
  = (Ok "01100110", Fixtures.empty_table)
  /\ exists response w1 metadata w2 processed,
       fetch (Platform := TableWorld.table_platform Fixtures.oracles)
         Fixtures.TEST_IMAGE_URL Fixtures.empty_table
       = (Ok response, w1)
       /\ Response.ok response = true
       /\ sharp_metadata (Platform := TableWorld.table_platform Fixtures.oracles)
            (Response.arrayBuffer response) w1
          = (Ok metadata, w2)
       /\ sharp_raw (Platform := TableWorld.table_platform Fixtures.oracles)
            (Response.arrayBuffer response)
            (option_map (cropRegion (dimension_or_1 (ImageMeta.width metadata))
                                    (dimension_or_1 (ImageMeta.height metadata)))
                        (Some (BoundingBox.mk 10 20 30 40))) w2
          = (Ok processed, Fixtures.empty_table)
       /\ "01100110" = hash_of_pixels processed
       /\ String.length "01100110" = List.length processed
       /\ is_binary "01100110".
Proof.
  split; [reflexivity|].
  exact (generatePerceptualHash_signature (P := TableWorld.table_platform Fixtures.oracles)
           Fixtures.TEST_IMAGE_URL (Some (BoundingBox.mk 10 20 30 40))
           Fixtures.empty_table Fixtures.empty_table "01100110" eq_refl).
Defined.

Lemma generatePerceptualHash_download_failure_witness :
  generatePerceptualHash (P := TableWorld.table_platform Fixtures.oracles)
    "https://example.com/missing.jpg" None Fixtures.empty_table
  = (Throw (Error "Failed to generate perceptual hash"), Fixtures.empty_table).
Proof.
  exact (generatePerceptualHash_download_failure
           (P := TableWorld.table_platform Fixtures.oracles)
           "https://example.com/missing.jpg" None Fixtures.empty_table Fixtures.empty_table
           (Ok (Response.mk false "Not Found" [])) eq_refl eq_refl).
Defined.

End HashExtras.

(** ** The path of an upload *)

Module UploadFacts.

Import Upload.

Lemma lower_alnum_of_lowered (c : ascii) :
  is_alnum (lower_ascii c) = true -> is_lower_alnum (lower_ascii c) = true.
Proof.
  destruct c as [[] [] [] [] [] [] [] []]; vm_compute; intros H; congruence.
Qed.

Lemma keep_alnum_lowered (s : string) :
  all_chars is_lower_alnum (keep_alnum (toLowerCase s)) = true.
Proof.
  induction s as [|c s IH]; cbn [toLowerCase keep_alnum all_chars]; [reflexivity|].
  destruct (is_alnum (lower_ascii c)) eqn:Hc; [|exact IH].
  cbn [all_chars]. now rewrite (lower_alnum_of_lowered c Hc), IH.
Qed.

Lemma or_bin_nonempty (s : string) : or_bin s <> "".
Proof.
  unfold or_bin. destruct (String.eqb_spec s ""); [discriminate|assumption].
Qed.

Lemma or_bin_lower (s : string) :
  all_chars is_lower_alnum s = true -> all_chars is_lower_alnum (or_bin s) = true.
Proof. unfold or_bin. destruct (String.eqb s ""); [reflexivity|auto]. Qed.

Lemma fileExt_lowered (fileName : string) :
  exists s, fileExt fileName = toLowerCase s.
Proof.
  unfold fileExt, or_bin. destruct (includes fileName "."); [|now exists "bin"].
  destruct (String.eqb _ ""); [now exists "bin"|eauto].
Qed.

Lemma sanitizedExt_safe_chars (fileName : string) :
  all_chars is_lower_alnum (sanitizedExt fileName) = true.
Proof.
  unfold sanitizedExt. apply or_bin_lower.
  destruct (fileExt_lowered fileName) as (s & ->). apply keep_alnum_lowered.
Qed.

(** The extension put into the storage path is never empty and consists of
    lower-case letters and digits only, whatever the file name: no dot,
    slash or other character of the file name reaches the path through
    it. *)
Theorem sanitizedExt_safe (fileName : string) :
  sanitizedExt fileName <> ""
  /\ all_chars is_lower_alnum (sanitizedExt fileName) = true.
Proof.
  split; [apply or_bin_nonempty|apply sanitizedExt_safe_chars].
Qed.

Lemma last_segment_from_plain (e : string) :
  forall segment,
    all_chars is_lower_alnum e = true ->
    last_segment_from segment e = (segment ++ e)%string.
Proof.
  induction e as [|c e IH]; intros segment Hall; cbn [last_segment_from].
  - now rewrite SignatureFacts.append_empty_r.
  - cbn [all_chars] in Hall. apply andb_prop in Hall as [Hc He].
    destruct (Ascii.eqb_spec c "."%char) as [->|_]; [discriminate Hc|].
    rewrite IH by exact He. now rewrite SignatureFacts.append_assoc.
Qed.

Lemma last_segment_from_dot (a e : string) :
  forall segment,
    all_chars is_lower_alnum e = true ->
    last_segment_from segment (a ++ "." ++ e) = e.
Proof.
  induction a as [|c a IH]; intros segment He.
  - cbn [append last_segment_from]. cbn. now rewrite last_segment_from_plain.
  - cbn [append last_segment_from]. destruct (Ascii.eqb c "."%char); now apply IH.
Qed.

(** The extension of the path built for an upload is the sanitised
    extension: splitting the path at its last dot gives it back, whatever
    the user id, the time stamp and the random suffix contain. *)
Theorem filePath_extension (userId stamp nonce fileName : string) :
  last_segment (filePath userId stamp nonce fileName) = sanitizedExt fileName
  /\ exists head, filePath userId stamp nonce fileName
                  = (head ++ "." ++ sanitizedExt fileName)%string.
Proof.
  assert (Hshape : filePath userId stamp nonce fileName
                   = ((userId ++ "/uploads/" ++ stamp ++ "-" ++ nonce)
                      ++ "." ++ sanitizedExt fileName)%string).
  { unfold filePath. now rewrite !SignatureFacts.append_assoc. }
  split; [|eauto].
  rewrite Hshape. unfold last_segment.
  apply last_segment_from_dot, sanitizedExt_safe_chars.
Qed.

Section Storage.

Variable env : ProcessEnv.
Variables stamp nonce : string.
Variable storage : string -> Completion StorageResult.

(** What a signed upload URL that was returned guarantees: both arguments
    were non-blank, the service client was configured, the path is the one
    built from the arguments, and the storage client answered for exactly
    that path, without an error and with the non-empty URL returned. *)
Theorem createSignedUploadUrl_success (userId fileName : string)
    (r : SignedUploadUrlResponse) :
  createSignedUploadUrl env stamp nonce storage userId fileName = Ok r ->
  blank userId = false /\ blank fileName = false
  /\ createServiceClient env = Ok tt
  /\ path r = filePath userId stamp nonce fileName
  /\ signedUrl r <> ""
  /\ exists result,
       storage (path r) = Ok result
       /\ error result = None
       /\ data result = Some (Some (signedUrl r)).
Proof.
  unfold createSignedUploadUrl, sign.
  destruct (blank userId); [discriminate|].
  destruct (blank fileName); [discriminate|].
  destruct (createServiceClient env) as [[]|e0].
  2:{ destruct (isError e0); discriminate. }
  destruct (storage (filePath userId stamp nonce fileName)) as [result|e1] eqn:Hst.
  2:{ destruct (isError e1); discriminate. }
  destruct (error result) as [err|] eqn:Herr.
  { destruct (isError (storage_failure err)); discriminate. }
  destruct (data result) as [[url|]|] eqn:Hdata; try discriminate.
  destruct (String.eqb_spec url "") as [->|Hurl]; [discriminate|].
  intros [= <-]. cbn [path signedUrl].
  repeat split; try assumption. now exists result.
Qed.

Lemma storage_failure_isError (err : option string) :
  isError (storage_failure err) = true.
Proof.
  destruct err as [msg|]; cbn; [|reflexivity].
  now destruct (includes msg "does not exist" || includes msg "not found").
Qed.

(** Whatever is thrown is an [Error]: an [Error] raised by the storage
    client is passed on as it is, anything else it throws is replaced by
    the unknown-error message. *)
Theorem createSignedUploadUrl_throws_errors (userId fileName : string)
    (e : JsError) :
  createSignedUploadUrl env stamp nonce storage userId fileName = Throw e ->
  isError e = true
  /\ (blank userId = false -> blank fileName = false ->
      createServiceClient env = Ok tt ->
      forall thrown,
        storage (filePath userId stamp nonce fileName) = Throw thrown ->
        e = if isError thrown then thrown
            else Error "Failed to create upload URL: Unknown error occurred").
Proof.
  unfold createSignedUploadUrl, sign. intros Hthrow. split.
  - destruct (blank userId); [now injection Hthrow as <-|].
    destruct (blank fileName); [now injection Hthrow as <-|].
    match type of Hthrow with
    | match ?c with _ => _ end = _ => destruct c as [r|e0]; [discriminate|]
    end.
    destruct (isError e0) eqn:He0; now injection Hthrow as <-.
  - intros Hu Hf Hc thrown Hst. rewrite Hu, Hf, Hc, Hst in Hthrow.
    destruct (isError thrown); now injection Hthrow as <-.
Qed.

End Storage.

Lemma createSignedUploadUrl_success_witness :
  let r := mkSignedUploadUrlResponse "https://storage/signed"
             "user-1/uploads/1700000000000-k3j9x.jpg" in
  blank "user-1" = false /\ blank "photo.JPG" = false
  /\ createServiceClient Fixtures.configured = Ok tt
  /\ path r = filePath "user-1" "1700000000000" "k3j9x" "photo.JPG"
  /\ signedUrl r <> ""
  /\ exists result,
       storage_ok "https://storage/signed" (path r) = Ok result
       /\ error result = None
       /\ data result = Some (Some (signedUrl r)).
Proof.
  exact (createSignedUploadUrl_success Fixtures.configured "1700000000000" "k3j9x"
           (storage_ok "https://storage/signed") "user-1" "photo.JPG" _ eq_refl).
Defined.

Lemma createSignedUploadUrl_throws_errors_witness :
  isError (Error "fetch failed") = true
  /\ (blank "user-1" = false -> blank "photo.JPG" = false ->
      createServiceClient Fixtures.configured = Ok tt ->
      forall thrown,
        storage_down (filePath "user-1" "1700000000000" "k3j9x" "photo.JPG")
        = Throw thrown ->
        Error "fetch failed"
        = if isError thrown then thrown
          else Error "Failed to create upload URL: Unknown error occurred").
Proof.
  exact (createSignedUploadUrl_throws_errors Fixtures.configured "1700000000000"
           "k3j9x" storage_down "user-1" "photo.JPG" _ eq_refl).
Defined.

End UploadFacts.

(** ** The code fence around the classifier's answer *)

Module CodeFenceFacts.

Import CodeFence.

Lemma strip_prefix_app (p l : list N) : strip_prefix p (p ++ l)%list = Some l.
Proof.
  induction p as [|a p IH]; cbn [strip_prefix app]; [reflexivity|].
  now rewrite N.eqb_refl.
Qed.

Lemma strip_prefix_longer (p q l : list N) :
  strip_prefix p l = None -> strip_prefix (p ++ q)%list l = None.
Proof.
  revert l. induction p as [|a p IH]; intros l; cbn [strip_prefix app]; [discriminate|].
  destruct l as [|b l]; [reflexivity|]. destruct (N.eqb a b); [apply IH|reflexivity].
Qed.

Lemma drop_spaces_app (ws l : list N) :
  spaces ws -> drop_spaces (ws ++ l)%list = drop_spaces l.
Proof.
  induction 1 as [|c ws Hc _ IH]; cbn [drop_spaces app]; [reflexivity|].
  now rewrite Hc.
Qed.

Lemma spaces_rev (ws : list N) : spaces ws -> spaces (rev ws).
Proof. apply Forall_rev. Qed.

Lemma drop_spaces_fence (l : list N) :
  drop_spaces (fence ++ l)%list = (fence ++ l)%list.
Proof. reflexivity. Qed.

Lemma drop_spaces_tight (body l : list N) :
  drop_spaces body = body -> body <> [] ->
  drop_spaces (body ++ l)%list = (body ++ l)%list.
Proof.
  destruct body as [|b body]; [congruence|]. intros Hb _.
  cbn [drop_spaces app] in *. destruct (is_white_space b) eqn:Hs; [|reflexivity].
  exfalso. clear -Hb.
  assert (Hlen : forall m : list N,
             (List.length (drop_spaces m) <= List.length m)%nat).
  { induction m as [|c m IH]; cbn [drop_spaces]; [lia|].
    destruct (is_white_space c); cbn [List.length]; lia. }
  specialize (Hlen body). rewrite Hb in Hlen. cbn [List.length] in Hlen. lia.
Qed.

Lemma trim_fenced (ws0 ws3 inner : list N) :
  spaces ws0 -> spaces ws3 ->
  trim (ws0 ++ (fence ++ inner ++ fence) ++ ws3)%list = (fence ++ inner ++ fence)%list.
Proof.
  intros H0 H3. unfold trim.
  assert (Hrev : rev (fence ++ inner ++ fence)%list = (fence ++ rev inner ++ fence)%list).
  { rewrite !rev_app_distr, <- app_assoc. reflexivity. }
  rewrite (drop_spaces_app ws0) by exact H0.
  change (drop_spaces ((fence ++ inner ++ fence) ++ ws3)%list)
    with ((fence ++ inner ++ fence) ++ ws3)%list.
  rewrite rev_app_distr, (drop_spaces_app (rev ws3)) by now apply spaces_rev.
  rewrite Hrev.
  change (drop_spaces (fence ++ rev inner ++ fence)%list)
    with (fence ++ rev inner ++ fence)%list.
  rewrite <- Hrev. apply rev_involutive.
Qed.

Lemma strip_closing_fenced (ws1 body ws2 : list N) :
  spaces ws1 -> spaces ws2 -> tight body ->
  strip_closing (drop_spaces (ws1 ++ body ++ ws2 ++ fence))%list = body.
Proof.
  intros H1 H2 [Hfront Hback].
  rewrite (drop_spaces_app ws1) by exact H1.
  destruct body as [|b body].
  - cbn [app]. rewrite (drop_spaces_app ws2) by exact H2. reflexivity.
  - rewrite drop_spaces_tight by (exact Hfront || discriminate).
    unfold strip_closing.
    rewrite app_assoc, rev_app_distr. change (rev fence) with fence.
    rewrite strip_prefix_app, rev_app_distr.
    rewrite (drop_spaces_app (rev ws2)) by now apply spaces_rev.
    now rewrite Hback, rev_involutive.
Qed.

Lemma is_white_space_spec (c : N) :
  is_white_space c = true
  <-> In c [9; 10; 11; 12; 13; 32; 160; 5760; 8192; 8193; 8194; 8195; 8196; 8197;
            8198; 8199; 8200; 8201; 8202; 8232; 8233; 8239; 8287; 12288; 65279]%N.
Proof.
  unfold is_white_space. cbn [In]. split.
  - rewrite !orb_true_iff, !andb_true_iff, !N.leb_le, !N.eqb_eq. lia.
  - intros H. repeat (destruct H as [<-|H]; [reflexivity|]). destruct H.
Qed.

(** Round trip of the fence: a body that neither starts nor ends with white
    space, wrapped in a fence with or without the [json] tag and with any
    white space around the fence and inside it, is given back exactly.
    Without the tag, the white space after the opening fence is there or
    the body does not itself start with [json].  White space is that of
    [trim] and [\s]: the code units 9 to 13, 32, U+00A0, U+1680, U+2000 to
    U+200A, U+2028, U+2029, U+202F, U+205F, U+3000 and U+FEFF, and no
    other. *)
Theorem strip_list_fenced (ws0 ws1 ws2 ws3 body : list N) :
  spaces ws0 -> spaces ws1 -> spaces ws2 -> spaces ws3 -> tight body ->
  strip_list (ws0 ++ fence ++ json_tag ++ ws1 ++ body ++ ws2 ++ fence ++ ws3)%list
  = body
  /\ (strip_prefix json_tag (ws1 ++ body ++ ws2 ++ fence)%list = None ->
      strip_list (ws0 ++ fence ++ ws1 ++ body ++ ws2 ++ fence ++ ws3)%list = body)
  /\ (forall c,
        is_white_space c = true
        <-> In c [9; 10; 11; 12; 13; 32; 160; 5760; 8192; 8193; 8194; 8195; 8196;
                  8197; 8198; 8199; 8200; 8201; 8202; 8232; 8233; 8239; 8287;
                  12288; 65279]%N).
Proof.
  intros H0 H1 H2 H3 Hbody. split; [|split; [|exact is_white_space_spec]].
  - replace (ws0 ++ fence ++ json_tag ++ ws1 ++ body ++ ws2 ++ fence ++ ws3)%list
      with (ws0 ++ (fence ++ (json_tag ++ ws1 ++ body ++ ws2) ++ fence) ++ ws3)%list
      by now rewrite <- !app_assoc.
    unfold strip_list. rewrite trim_fenced by assumption.
    replace (fence ++ (json_tag ++ ws1 ++ body ++ ws2) ++ fence)%list
      with ((fence ++ json_tag) ++ ws1 ++ body ++ ws2 ++ fence)%list
      by now rewrite <- !app_assoc.
    unfold strip_opening. rewrite strip_prefix_app.
    now apply strip_closing_fenced.
  - intros Hplain.
    replace (ws0 ++ fence ++ ws1 ++ body ++ ws2 ++ fence ++ ws3)%list
      with (ws0 ++ (fence ++ (ws1 ++ body ++ ws2) ++ fence) ++ ws3)%list
      by now rewrite <- !app_assoc.
    unfold strip_list. rewrite trim_fenced by assumption.
    replace (fence ++ (ws1 ++ body ++ ws2) ++ fence)%list
      with (fence ++ ws1 ++ body ++ ws2 ++ fence)%list
      by now rewrite <- !app_assoc.
    unfold strip_opening at 1.
    replace (strip_prefix (fence ++ json_tag) (fence ++ ws1 ++ body ++ ws2 ++ fence))%list
      with (@None (list N)) by (symmetry; exact Hplain).
    unfold strip_opening. rewrite strip_prefix_app.
    now apply strip_closing_fenced.
Qed.

Lemma drop_spaces_all (ws : list N) : spaces ws -> drop_spaces ws = [].
Proof.
  intros Hws. rewrite <- (app_nil_r ws). now rewrite drop_spaces_app.
Qed.

Lemma trim_padded (ws0 ws1 body : list N) :
  spaces ws0 -> spaces ws1 -> tight body -> trim (ws0 ++ body ++ ws1)%list = body.
Proof.
  intros H0 H1 [Hfront Hback]. unfold trim.
  rewrite (drop_spaces_app ws0) by exact H0.
  destruct body as [|b body].
  - cbn [app]. now rewrite (drop_spaces_all ws1).
  - rewrite drop_spaces_tight by (exact Hfront || discriminate).
    rewrite rev_app_distr, (drop_spaces_app (rev ws1)) by now apply spaces_rev.
    now rewrite Hback, rev_involutive.
Qed.

(** A text that, its surrounding white space apart, does not open with a
    fence is only trimmed: what is handed to [JSON.parse] is the text
    without the white space around it, and a fence further inside it or at
    its end is left where it is. *)
Theorem strip_list_unfenced (ws0 ws1 body : list N) :
  spaces ws0 -> spaces ws1 -> tight body ->
  strip_prefix fence body = None ->
  trim (ws0 ++ body ++ ws1)%list = body
  /\ strip_list (ws0 ++ body ++ ws1)%list = body.
Proof.
  intros H0 H1 Hbody Hopen.
  pose proof (trim_padded ws0 ws1 body H0 H1 Hbody) as Htrim.
  split; [exact Htrim|].
  unfold strip_list, strip_opening. rewrite Htrim.
  now rewrite (strip_prefix_longer fence json_tag _ Hopen), Hopen.
Qed.

Lemma strip_list_fenced_witness :
  strip_list ([65279; 10] ++ fence ++ json_tag ++ [160; 10] ++ code_units "{}"
              ++ [10; 8232] ++ fence ++ [32; 12288])%N%list
  = code_units "{}"
  /\ (strip_prefix json_tag ([160; 10] ++ code_units "{}" ++ [10; 8232] ++ fence)%N%list
      = None ->
      strip_list ([65279; 10] ++ fence ++ [160; 10] ++ code_units "{}"
                  ++ [10; 8232] ++ fence ++ [32; 12288])%N%list
      = code_units "{}").
Proof.
  refine ((fun H => conj (proj1 H) (proj1 (proj2 H)))
            (strip_list_fenced [65279; 10]%N [160; 10]%N [10; 8232]%N [32; 12288]%N
               (code_units "{}") _ _ _ _ _)).
  - repeat constructor.
  - repeat constructor.
  - repeat constructor.
  - repeat constructor.
  - split; reflexivity.
Defined.

Lemma strip_list_unfenced_witness :
  trim ([160; 9] ++ (code_units "{}" ++ fence) ++ [10; 65279])%N%list
  = (code_units "{}" ++ fence)%list
  /\ strip_list ([160; 9] ++ (code_units "{}" ++ fence) ++ [10; 65279])%N%list
     = (code_units "{}" ++ fence)%list.
Proof.
  apply (strip_list_unfenced [160; 9]%N [10; 65279]%N (code_units "{}" ++ fence)%list).
  - repeat constructor.
  - repeat constructor.
  - split; reflexivity.
  - reflexivity.
Defined.

End CodeFenceFacts.
